(** * cpenv: active-module registry, repository registry, module creation,
      command line and the resolution/activation engine

    Shallow embedding of [cpenv/api.py] and [cpenv/__main__.py].  Module-level
    state of the Python package ([_registry], [_active_modules], [os.environ],
    the file system) is threaded explicitly. *)

From Stdlib Require Import ZArith Lia Sorted Permutation Ascii String.
From stdpp Require Import gmap strings list fin_maps.

(** ** Outcomes of Python calls *)

Inductive PyExc :=
| OSError | ValueError | AttributeError | KeyError | IndexError
| UnboundLocalError | NameError | ResolveError | TypeError.

(** A call returns a value, raises, or leaves through [sys.exit(code)]. *)
Inductive Outcome (A : Type) :=
| Returns (a : A)
| Raises (e : PyExc)
| Exits (code : Z).

Arguments Returns {A} a.
Arguments Raises {A} e.
Arguments Exits {A} code.

#[global] Instance Outcome_ret : MRet Outcome := fun A a => Returns a.

#[global] Instance Outcome_bind : MBind Outcome := fun A B k o =>
  match o with
  | Returns a => k a
  | Raises e => Raises e
  | Exits c => Exits c
  end.

(** ** Python list helpers *)

Module Py.

(** [x in l]: some element compares equal to [x]. *)
Definition contains {A} (eqb : A -> A -> bool) (x : A) (l : list A) : bool :=
  existsb (eqb x) l.

(** [l.remove(x)]: drops the first element equal to [x]. The caller guards
    the call with [x in l], so the [ValueError] branch is never taken. *)
Fixpoint remove {A} (eqb : A -> A -> bool) (x : A) (l : list A) : list A :=
  match l with
  | [] => []
  | y :: l' => if eqb x y then l' else y :: remove eqb x l'
  end.

(** Stable sorting under a boolean order [leb]: an element is inserted
    before the first element it is below or equal to. *)
Fixpoint insert_sorted {A} (leb : A -> A -> bool) (x : A) (l : list A) : list A :=
  match l with
  | [] => [x]
  | y :: l' => if leb x y then x :: y :: l' else y :: insert_sorted leb x l'
  end.

Definition sort_with {A} (leb : A -> A -> bool) (l : list A) : list A :=
  foldr (insert_sorted leb) [] l.

Definition ordered {A} (leb : A -> A -> bool) (x y : A) : Prop := leb x y = true.

(** [l.sort(key=...)] on string keys: stable, ascending. *)
Definition key_leb {A} (key : A -> string) (x y : A) : bool :=
  String.leb (key x) (key y).

Definition sort_by {A} (key : A -> string) (l : list A) : list A :=
  sort_with (key_leb key) l.

(** Ascending order of the sort keys. *)
Definition key_le {A} (key : A -> string) : A -> A -> Prop :=
  ordered (key_leb key).

(** [sep.join(l)] *)
Definition join (sep : string) (l : list string) : string :=
  String.concat sep l.

(** [l.insert(idx, x)]: a negative index counts from the end, and an index
    outside the list is clamped to its nearest end. *)
Definition list_insert {A} (idx : Z) (x : A) (l : list A) : list A :=
  let n := Z.of_nat (length l) in
  let i := if (idx <? 0)%Z then Z.max 0 (idx + n) else Z.min idx n in
  take (Z.to_nat i) l ++ x :: drop (Z.to_nat i) l.

(** [l[i]]: a negative index counts from the end; [None] stands for the
    [IndexError] of an index outside the list. *)
Definition getitem {A} (l : list A) (i : Z) : option A :=
  let n := Z.of_nat (length l) in
  if (i <? 0)%Z
  then (if (i + n <? 0)%Z then None else l !! Z.to_nat (i + n))
  else l !! Z.to_nat i.

(** [s.split(sep)], scanning left to right: [cur] is the piece being read
    and [skip] counts the characters of a separator still to be passed. *)
Fixpoint split_go (sep : string) (skip : nat) (cur : string) (s : string)
    : list string :=
  match s with
  | EmptyString => [cur]
  | String c s' =>
      match skip with
      | S k => split_go sep k cur s'
      | O =>
          if String.prefix sep s
          then cur :: split_go sep (String.length sep - 1) EmptyString s'
          else split_go sep 0 (cur +:+ String c EmptyString) s'
      end
  end.

(** [s.split(sep)] raises [ValueError] on an empty separator. *)
Definition split (sep : string) (s : string) : Outcome (list string) :=
  match sep with
  | EmptyString => Raises ValueError
  | _ => Returns (split_go sep 0 EmptyString s)
  end.

(** [c in s] for a character [c]. *)
Fixpoint has_char (c : ascii) (s : string) : bool :=
  match s with
  | EmptyString => false
  | String a s' => Ascii.eqb c a || has_char c s'
  end.

(** Truth value of a string: [if s:]. *)
Definition truthy (s : string) : bool :=
  match s with EmptyString => false | _ => true end.

(** [sorted(l, reverse=...)] under a strict order [ltb], the only
    comparison the sort uses: stable, and with [reverse] the list is
    reversed before and after sorting, which keeps equal elements in
    their original order. *)
Definition sorted {A} (ltb : A -> A -> bool) (reverse : bool) (l : list A)
    : list A :=
  let leb x y := negb (ltb y x) in
  if reverse then rev (sort_with leb (rev l)) else sort_with leb l.

End Py.

(** An [OrderedDict] with string keys: the items in insertion order, each
    key once. *)
Module OrderedDict.

Definition t (V : Type) : Type := list (string * V).

(** [k in d] *)
Definition contains {V} (k : string) (d : t V) : bool :=
  existsb (fun kv => String.eqb k kv.1) d.

(** [d[k] = v]: a present key keeps its place, a new key goes last. *)
Fixpoint setitem {V} (k : string) (v : V) (d : t V) : t V :=
  match d with
  | [] => [(k, v)]
  | (k', v') :: d' =>
      if String.eqb k k' then (k', v) :: d' else (k', v') :: setitem k v d'
  end.

(** [OrderedDict(items)] *)
Definition of_items {V} (items : list (string * V)) : t V :=
  foldl (fun d kv => setitem kv.1 kv.2 d) [] items.

(** [d.pop(k, None)], the popped value dropped. *)
Fixpoint pop {V} (k : string) (d : t V) : t V :=
  match d with
  | [] => []
  | (k', v') :: d' => if String.eqb k k' then d' else (k', v') :: pop k d'
  end.

Definition items {V} (d : t V) : list (string * V) := d.
Definition keys {V} (d : t V) : list string := fst <$> d.
Definition values {V} (d : t V) : list V := snd <$> d.

End OrderedDict.

(** ** Versions, requirements, module specs, repositories *)

(** Modelled from the spec: the version type of [cpenv/module.py] is not
    among the sources; versions are dotted numbers ("1.0.0") under the
    documented total order, compared component by component. *)
Definition Version := list nat.

Fixpoint Version_compare (v1 v2 : Version) : comparison :=
  match v1, v2 with
  | [], [] => Eq
  | [], _ :: _ => Lt
  | _ :: _, [] => Gt
  | x :: v1', y :: v2' =>
      match Nat.compare x y with
      | Eq => Version_compare v1' v2'
      | c => c
      end
  end.

Definition Version_leb (v1 v2 : Version) : bool :=
  match Version_compare v1 v2 with Gt => false | _ => true end.

Definition Version_eqb (v1 v2 : Version) : bool :=
  match Version_compare v1 v2 with Eq => true | _ => false end.

(** Modelled from the spec: a Requirement is a name plus a version
    constraint (exact / range / unconstrained) and its raw text. *)
Inductive Constraint :=
| Unconstrained
| Exact (v : Version)
| AtLeast (v : Version)
| Above (v : Version)
| AtMost (v : Version)
| Below (v : Version).

Definition satisfies (c : Constraint) (v : Version) : bool :=
  match c with
  | Unconstrained => true
  | Exact w => Version_eqb v w
  | AtLeast w => Version_leb w v
  | Above w => negb (Version_leb v w)
  | AtMost w => Version_leb v w
  | Below w => negb (Version_leb w v)
  end.

Record Requirement := mkRequirement {
  req_name : string;
  req_constraint : Constraint;
  req_raw : string
}.

(** A registered repository: the attributes [api.py] and [__main__.py]
    read ([name], [path]) and whether it is a [LocalRepo]. *)
Record Repo := mkRepo {
  repo_name : string;
  repo_path : string;
  repo_is_local : bool
}.

Definition LocalRepo (n p : string) : Repo := mkRepo n p true.

(** Environment delta of a module: per variable, an ordered list of
    operations with a string value and an optional join separator. *)
Inductive EnvOpKind := OpSet | OpPrepend | OpAppend.

Record EnvOp := mkEnvOp {
  op_kind : EnvOpKind;
  op_value : string;
  op_sep : option string
}.

Record ModuleSpec := mkModuleSpec {
  spec_name : string;
  spec_version : Version;
  spec_real_name : string;
  spec_path : string;
  spec_repo : Repo;
  spec_requires : list Requirement;
  spec_environment : list (string * list EnvOp)
}.

(** ** The resolver *)

Module Resolver.

Inductive ResolveError :=
| Unresolved (r : Requirement)
| Cycle (n : string)
| Conflict (r : Requirement) (m : ModuleSpec).

(** [OutOfFuel] is the bound of the recursion below; [resolve] never
    returns it (see [resolve_terminates]). *)
Inductive Resolution :=
| Resolved (ms : list ModuleSpec)
| Failed (e : ResolveError)
| OutOfFuel.

Section WithStorage.

(** [Repository.list()]: the modules a repository holds. *)
Variable list_modules : Repo -> list ModuleSpec.

Definition matches (r : Requirement) (m : ModuleSpec) : bool :=
  String.eqb (spec_name m) (req_name r)
  && satisfies (req_constraint r) (spec_version m).

(** [m] sorts before [m'] when its version is the higher one. *)
Definition version_geb (m m' : ModuleSpec) : bool :=
  Version_leb (spec_version m') (spec_version m).

Definition sort_desc (l : list ModuleSpec) : list ModuleSpec :=
  Py.sort_with version_geb l.

(** Modelled from the spec: [find(name, optional version constraint)]
    returns the matching modules of one repository, sorted by version
    descending. *)
Definition find (repo : Repo) (r : Requirement) : list ModuleSpec :=
  sort_desc (List.filter (matches r) (list_modules repo)).

(** Modelled from the spec: repositories are searched in registration
    order; the first repository that yields any match is authoritative and
    its best (highest) match is selected; a repository with no match is
    skipped. *)
Fixpoint search (repos : list Repo) (r : Requirement) : option ModuleSpec :=
  match repos with
  | [] => None
  | repo :: rest =>
      match find repo r with
      | [] => search rest r
      | m :: _ => Some m
      end
  end.

Definition lookup_name (n : string) (ms : list ModuleSpec) : option ModuleSpec :=
  List.find (fun m => String.eqb (spec_name m) n) ms.

(** Expansion of a list of requirements, left to right, threading the
    modules resolved so far. *)
Fixpoint expand_all (step : list ModuleSpec -> Requirement -> Resolution)
    (rs : list Requirement) (acc : list ModuleSpec) : Resolution :=
  match rs with
  | [] => Resolved acc
  | r :: rs' =>
      match step acc r with
      | Resolved acc' => expand_all step rs' acc'
      | other => other
      end
  end.

(** Modelled from the spec (4.2, steps 2 to 6): a requirement whose name
    is on the active expansion path is a cycle; a name already resolved is
    kept when its version satisfies the new constraint and is a conflict
    otherwise; a new name is searched, its [requires] are expanded first,
    and the module is emitted after them. *)
Fixpoint expand (fuel : nat) (repos : list Repo) (path : list string)
    (acc : list ModuleSpec) (r : Requirement) : Resolution :=
  match fuel with
  | O => OutOfFuel
  | S fuel' =>
      if existsb (String.eqb (req_name r)) path then Failed (Cycle (req_name r))
      else
        match lookup_name (req_name r) acc with
        | Some m =>
            if satisfies (req_constraint r) (spec_version m) then Resolved acc
            else Failed (Conflict r m)
        | None =>
            match search repos r with
            | None => Failed (Unresolved r)
            | Some m =>
                match expand_all (expand fuel' repos (req_name r :: path))
                        (spec_requires m) acc with
                | Resolved acc' => Resolved (acc' ++ [m])
                | other => other
                end
            end
        end
  end.

Definition all_modules (repos : list Repo) : list ModuleSpec :=
  mjoin (list_modules <$> repos).

(** [Resolver(repos).resolve(requirements)] *)
Definition resolve (repos : list Repo) (rs : list Requirement) : Resolution :=
  expand_all (expand (S (length (all_modules repos))) repos []) rs [].

End WithStorage.

(** [d] is a module for requirement [r]: its name, and a version that
    satisfies the constraint. *)
Definition provides (r : Requirement) (d : ModuleSpec) : Prop :=
  spec_name d = req_name r
  /\ satisfies (req_constraint r) (spec_version d) = true.

(** Every dependency of every module occurs strictly before it. *)
Definition dependency_ordered (out : list ModuleSpec) : Prop :=
  forall (i : nat) (m : ModuleSpec), out !! i = Some m ->
    forall D, D ∈ spec_requires m ->
      exists (j : nat) (d : ModuleSpec), j < i /\ out !! j = Some d /\ provides D d.

Definition names (ms : list ModuleSpec) : list string := spec_name <$> ms.

(** The invariant of the list of modules resolved so far: one module per
    name, every module taken from a repository, dependencies first. *)
Record well_formed (list_modules : Repo -> list ModuleSpec) (repos : list Repo)
    (acc : list ModuleSpec) : Prop := mkWellFormed {
  wf_nodup : NoDup (names acc);
  wf_from : forall m, m ∈ acc -> m ∈ all_modules list_modules repos;
  wf_ordered : dependency_ordered acc
}.

(** What one expansion step under the expansion path [path] guarantees. *)
Definition step_ok (list_modules : Repo -> list ModuleSpec) (repos : list Repo)
    (path : list string)
    (step : list ModuleSpec -> Requirement -> Resolution) : Prop :=
  forall acc r acc',
    well_formed list_modules repos acc -> step acc r = Resolved acc' ->
    exists ext, acc' = acc ++ ext
      /\ well_formed list_modules repos acc'
      /\ (forall x, x ∈ ext -> spec_name x ∉ path)
      /\ (exists d, d ∈ acc' /\ provides r d).

End Resolver.

(** Concrete repositories used in the examples. *)
Definition home_repo : Repo := LocalRepo "home" "/home/modules".
Definition user_repo : Repo := LocalRepo "user" "/user/modules".

Definition req (n : string) : Requirement := mkRequirement n Unconstrained n.
Definition req_eq (n : string) (v : Version) (raw : string) : Requirement :=
  mkRequirement n (Exact v) raw.

Definition moduleA_1 : ModuleSpec :=
  mkModuleSpec "moduleA" [1; 0; 0] "moduleA-1.0.0" "/home/modules/moduleA-1.0.0"
    home_repo [] [].
Definition moduleA_2 : ModuleSpec :=
  mkModuleSpec "moduleA" [2; 0; 0] "moduleA-2.0.0" "/home/modules/moduleA-2.0.0"
    home_repo [] [].
Definition moduleA_3_user : ModuleSpec :=
  mkModuleSpec "moduleA" [3; 0; 0] "moduleA-3.0.0" "/user/modules/moduleA-3.0.0"
    user_repo [] [].
Definition app_1 : ModuleSpec :=
  mkModuleSpec "app" [1; 0] "app-1.0" "/home/modules/app-1.0"
    home_repo [req "moduleA"; req "tools"] [].
Definition tools_1 : ModuleSpec :=
  mkModuleSpec "tools" [0; 9] "tools-0.9" "/home/modules/tools-0.9"
    home_repo [req_eq "moduleA" [2; 0; 0] "moduleA==2.0.0"] [].
Definition cycA : ModuleSpec :=
  mkModuleSpec "A" [1] "A-1" "/user/modules/A-1" user_repo [req "B"] [].
Definition cycB : ModuleSpec :=
  mkModuleSpec "B" [1] "B-1" "/user/modules/B-1" user_repo [req "A"] [].

(** What each example repository lists. *)
Definition example_storage (r : Repo) : list ModuleSpec :=
  if String.eqb (repo_name r) "home" then [moduleA_1; moduleA_2; app_1; tools_1]
  else if String.eqb (repo_name r) "user" then [moduleA_3_user; cycA; cycB]
  else [].

(** ** Modules, as the registry code sees them *)

(** A [Module] object: the attributes [api.py] and [__main__.py] read. *)
Record Module := mkModule {
  path : string;
  name : string;
  version : string;
  real_name : string
}.

(** [Module(path, name, version)]; [real_name] is the name-version key. *)
Definition Module_new (p n v : string) : Module :=
  mkModule p n v (n +:+ "-" +:+ v).

(** Equality of modules by their root path and identity key: the
    comparison used by the witnesses and examples below. *)
Definition Module_path_eqb (m1 m2 : Module) : bool :=
  String.eqb (path m1) (path m2).

(** Equality of modules by their activation key alone. *)
Definition Module_name_eqb (m1 m2 : Module) : bool :=
  String.eqb (real_name m1) (real_name m2).

(** Equality of modules attribute by attribute. *)
Definition Module_all_eqb (m1 m2 : Module) : bool :=
  String.eqb (path m1) (path m2) && String.eqb (name m1) (name m2)
  && String.eqb (version m1) (version m2) && String.eqb (real_name m1) (real_name m2).

(** ** The active-module registry and [CPENV_ACTIVE_MODULES] *)

Section ActiveModules.

(** [os.pathsep]: ":" on POSIX, ";" on Windows. *)
Variable pathsep : string.

(** The test behind [module in _active_modules] and [list.remove]:
    identity or [==].  The class that may override [__eq__] lives in
    [cpenv/module.py]; only reflexivity (the identity shortcut of list
    membership) is ever assumed of it. *)
Variable Module_eqb : Module -> Module -> bool.

Record ActiveState := mkActive {
  _active_modules : list Module;
  environ : gmap string string
}.

Definition serialize (ms : list Module) : string :=
  Py.join pathsep (real_name <$> ms).

Definition add_active_module (m : Module) (st : ActiveState) : ActiveState :=
  let ms := if Py.contains Module_eqb m (_active_modules st)
            then _active_modules st
            else _active_modules st ++ [m] in
  let ms := Py.sort_by real_name ms in
  mkActive ms (<["CPENV_ACTIVE_MODULES" := serialize ms]> (environ st)).

Definition remove_active_module (m : Module) (st : ActiveState) : ActiveState :=
  let ms := if Py.contains Module_eqb m (_active_modules st)
            then Py.remove Module_eqb m (_active_modules st)
            else _active_modules st in
  mkActive ms (<["CPENV_ACTIVE_MODULES" := serialize ms]> (environ st)).

(** A call of either function. *)
Inductive ActiveOp :=
| Add (m : Module)
| Remove (m : Module).

Definition run_op (st : ActiveState) (op : ActiveOp) : ActiveState :=
  match op with
  | Add m => add_active_module m st
  | Remove m => remove_active_module m st
  end.

Definition run_ops (ops : list ActiveOp) (st : ActiveState) : ActiveState :=
  foldl run_op st ops.

End ActiveModules.

Definition initial_active : ActiveState := mkActive [] ∅.

(** Concrete modules used in the examples: the same name and version
    installed in two repositories, and a second module. *)
Definition a_home : Module := Module_new "/home/modules/a-1.0" "a" "1.0".
Definition a_user : Module := Module_new "/user/modules/a-1.0" "a" "1.0".
Definition b_home : Module := Module_new "/home/modules/b-1.0" "b" "1.0".

(** ** The repository registry *)

(** A value stored in the module-level dict [_registry]: the table of
    registered repositories kept under the key ['repos'], or a bare [Repo]
    object, which is what [update_repo] writes at the top level. *)
Inductive RegistryValue :=
| RepoTable (d : OrderedDict.t Repo)
| RepoObject (r : Repo).

Abbreviation Registry := (gmap string RegistryValue).

(** [_registry = {'repos': OrderedDict()}] *)
Definition initial_registry : Registry := {["repos" := RepoTable []]}.

(** [_registry['repos']] used as a mapping: [KeyError] when the key is
    missing and, when a [Repo] object sits there, the exception [e] of the
    mapping operation attempted on it. *)
Definition repos_table (e : PyExc) (reg : Registry) : Outcome (OrderedDict.t Repo) :=
  match reg !! "repos" with
  | None => Raises KeyError
  | Some (RepoTable d) => Returns d
  | Some (RepoObject _) => Raises e
  end.

(** [get_repos()] *)
Definition get_repos (reg : Registry) : Outcome (list Repo) :=
  d ← repos_table AttributeError reg; mret (OrderedDict.values d).

(** [update_repo(repo)]: [_registry.update({repo.name: repo})]. *)
Definition update_repo (repo : Repo) (reg : Registry) : Registry :=
  <[repo_name repo := RepoObject repo]> reg.

(** [add_repo(repo, idx=None)] *)
Definition add_repo (repo : Repo) (idx : option Z) (reg : Registry) : Outcome Registry :=
  d ← repos_table TypeError reg;
  if OrderedDict.contains (repo_name repo) d then mret reg
  else match idx with
       | Some i =>
           let items := Py.list_insert i (repo_name repo, repo) (OrderedDict.items d) in
           mret (<["repos" := RepoTable (OrderedDict.of_items items)]> reg)
       | None =>
           mret (<["repos" := RepoTable (OrderedDict.setitem (repo_name repo) repo d)]> reg)
       end.

(** [remove_repo(repo)] *)
Definition remove_repo (repo : Repo) (reg : Registry) : Outcome Registry :=
  d ← repos_table AttributeError reg;
  mret (<["repos" := RepoTable (OrderedDict.pop (repo_name repo) d)]> reg).

(** Plain values a caller can pass in a query. *)
Inductive PyAtom :=
| ANone
| ABool (b : bool)
| AInt (z : Z)
| AStr (s : string).

(** [a == b] on plain values; [bool] is a subtype of [int]. *)
Definition PyAtom_eqb (a b : PyAtom) : bool :=
  match a, b with
  | ANone, ANone => true
  | ABool x, ABool y => Bool.eqb x y
  | ABool x, AInt z | AInt z, ABool x => (z =? (if x then 1 else 0))%Z
  | AInt x, AInt y => (x =? y)%Z
  | AStr x, AStr y => String.eqb x y
  | _, _ => false
  end.

(** The first argument of [get_repo]: a [Repo] instance or a plain value. *)
Inductive RepoArg :=
| ArgRepo (r : Repo)
| ArgAtom (a : PyAtom).

Section GetRepo.

(** [getattr(repo, k)] on plain-valued attributes; [None] for an
    attribute the object does not have.  The class is defined in
    [cpenv/repos.py]; the [name] attribute is the one field relied upon. *)
Variable Repo_getattr : Repo -> string -> option PyAtom.

(** [all([getattr(repo, k, False) == v for k, v in query.items()])] *)
Definition repo_matches (query : OrderedDict.t PyAtom) (repo : Repo) : bool :=
  forallb (fun kv => PyAtom_eqb (default (ABool false) (Repo_getattr repo kv.1)) kv.2)
          (OrderedDict.items query).

(** [get_repo(name, **query)]; [None] is Python's [None], returned when
    the loop falls through. *)
Definition get_repo (name : RepoArg) (query : OrderedDict.t PyAtom) (reg : Registry)
    : Outcome (option Repo) :=
  match name with
  | ArgRepo r => mret (Some r)
  | ArgAtom a =>
      let query := OrderedDict.setitem "name" a query in
      repos ← get_repos reg;
      mret (List.find (repo_matches query) repos)
  end.

End GetRepo.

(** The table of a registry in good order: every key once, and each
    repository filed under its own name. *)
Definition table_ok (d : OrderedDict.t Repo) : Prop :=
  NoDup (OrderedDict.keys d) /\ forall k r, (k, r) ∈ d -> k = repo_name r.

Definition registry_ok (reg : Registry) : Prop :=
  exists d, reg !! "repos" = Some (RepoTable d) /\ table_ok d.

(** The attributes of the repositories used in the examples. *)
Definition example_getattr (repo : Repo) (k : string) : option PyAtom :=
  if String.eqb k "name" then Some (AStr (repo_name repo))
  else if String.eqb k "path" then Some (AStr (repo_path repo))
  else None.

(** A registry with the example repositories [home] and [user]. *)
Definition example_registry : Registry :=
  <["repos" := RepoTable [("home", home_repo); ("user", user_repo)]]> ∅.

(** A call of one of the functions that change the registry. *)
Inductive RegistryOp :=
| AddRepo (repo : Repo) (idx : option Z)
| RemoveRepo (repo : Repo)
| UpdateRepo (repo : Repo).

Definition run_registry_op (reg : Registry) (op : RegistryOp) : Outcome Registry :=
  match op with
  | AddRepo repo idx => add_repo repo idx reg
  | RemoveRepo repo => remove_repo repo reg
  | UpdateRepo repo => mret (update_repo repo reg)
  end.

Fixpoint run_registry_ops (ops : list RegistryOp) (reg : Registry) : Outcome Registry :=
  match ops with
  | [] => mret reg
  | op :: ops' => reg' ← run_registry_op reg op; run_registry_ops ops' reg'
  end.

Definition is_update (op : RegistryOp) : bool :=
  match op with UpdateRepo _ => true | _ => false end.

(** ** Paths and environment variables *)

(** The module-level state the path functions read and write: the
    registry, [os.environ], and the directories handed to
    [utils.ensure_path_exists], in call order. *)
Record Session := mkSession {
  registry : Registry;
  os_environ : gmap string string;
  ensured_paths : list string
}.

Section Paths.

(** [os.pathsep] *)
Variable pathsep : string.
(** [utils.normpath] applied to its parts, from [cpenv/utils.py]. *)
Variable normpath : list string -> string.
(** [appdirs.site_data_dir('cpenv', appauthor=False)] and
    [appdirs.user_data_dir('cpenv', appauthor=False)]. *)
Variable site_data_dir : string.
Variable user_data_dir : string.
(** [os.getcwd()] *)
Variable getcwd : string.

Definition ensure_path_exists (p : string) (s : Session) : Session :=
  mkSession (registry s) (os_environ s) (ensured_paths s ++ [p]).

Definition get_home_path (env : gmap string string) : string :=
  normpath [default site_data_dir (env !! "CPENV_HOME")].

Definition get_home_modules_path (env : gmap string string) : string :=
  normpath [get_home_path env; "modules"].

Definition get_cache_path (paths : list string) (env : gmap string string) : string :=
  normpath (get_home_path env :: "cache" :: paths).

Definition _init_home_path (home : string) (s : Session) : Session :=
  let home_modules := normpath [home; "modules"] in
  let home_cache := normpath [home; "cache"] in
  ensure_path_exists home_cache
    (ensure_path_exists home_modules (ensure_path_exists home s)).

Definition set_home_path (p : string) (s : Session) : string * Session :=
  let home := normpath [p] in
  let s := mkSession (registry s) (<["CPENV_HOME" := home]> (os_environ s))
                     (ensured_paths s) in
  let s := _init_home_path home s in
  let repo := LocalRepo "home" (get_home_modules_path (os_environ s)) in
  (home, mkSession (update_repo repo (registry s)) (os_environ s) (ensured_paths s)).

Definition _init_user_path (user : string) (s : Session) : Session :=
  let user_modules := normpath [user; "modules"] in
  ensure_path_exists user_modules (ensure_path_exists user s).

Definition get_user_path : string := normpath [user_data_dir].

Definition get_user_modules_path : string := normpath [get_user_path; "modules"].

(** One round of the loop over [CPENV_MODULES]: the entry is looked up as
    it is written and appended normalized. *)
Definition append_module_path (module_paths : list string) (module_path : string)
    : list string :=
  if Py.contains String.eqb module_path module_paths then module_paths
  else module_paths ++ [normpath [module_path]].

Definition get_module_paths (env : gmap string string) : Outcome (list string) :=
  let module_paths := [normpath [getcwd]; get_user_modules_path] in
  let cpenv_home_modules := get_home_modules_path env in
  let module_paths :=
    if Py.contains String.eqb cpenv_home_modules module_paths then module_paths
    else module_paths ++ [cpenv_home_modules] in
  match env !! "CPENV_MODULES" with
  | Some cpenv_modules_path =>
      if Py.truthy cpenv_modules_path
      then parts ← Py.split pathsep cpenv_modules_path;
           mret (foldl append_module_path module_paths parts)
      else mret module_paths
  | None => mret module_paths
  end.

Definition add_module_path (p : string) (s : Session) : Outcome (list string * Session) :=
  let p := normpath [p] in
  cpenv_modules ← Py.split pathsep (default "" (os_environ s !! "CPENV_MODULES"));
  let module_paths := List.filter Py.truthy cpenv_modules in
  '(module_paths, reg) ←
    (if Py.contains String.eqb p module_paths then mret (module_paths, registry s)
     else reg ← add_repo (LocalRepo p p) None (registry s);
          mret (module_paths ++ [p], reg));
  mret (module_paths,
        mkSession reg (<["CPENV_MODULES" := Py.join pathsep module_paths]> (os_environ s))
                  (ensured_paths s)).

End Paths.

(** A path normalization used in the examples: the parts joined by [/]. *)
Definition example_normpath (parts : list string) : string := Py.join "/" parts.

(** ** Listing modules *)

Section SortModules.

Context {M V : Type}.
(** The attributes [real_name] and [version] of a module, and [<] on
    versions. *)
Variable module_real_name : M -> string.
Variable module_version : M -> V.
Variable version_ltb : V -> V -> bool.

(** [(a, v) < (b, w)] on tuples: the first components decide unless they
    are equal, and then the versions do ([version_ltb] is taken to be
    false on versions that compare equal, which tuple comparison never
    hands to [<]). *)
Definition sort_key_ltb (x y : M) : bool :=
  if String.eqb (module_real_name x) (module_real_name y)
  then version_ltb (module_version x) (module_version y)
  else String.ltb (module_real_name x) (module_real_name y).

(** [sort_modules(modules, reverse=False)] *)
Definition sort_modules (modules : list M) (reverse : bool) : list M :=
  Py.sorted sort_key_ltb reverse modules.

End SortModules.

Section GetModules.

(** [Resolver(repos).resolve(requirements)] and [repo.list()], from
    [cpenv/resolver.py] and [cpenv/repos.py]. *)
Variable Resolver_resolve : list Repo -> list string -> Outcome (list ModuleSpec).
Variable Repo_list : Repo -> list ModuleSpec.
Variable version_ltb : Version -> Version -> bool.

(** [get_modules], applied to its requirements. *)
Definition get_modules (requirements : list string) (reg : Registry)
    : Outcome (list ModuleSpec) :=
  match requirements with
  | _ :: _ =>
      repos ← get_repos reg;
      resolved ← Resolver_resolve repos requirements;
      mret (sort_modules spec_real_name spec_version version_ltb resolved false)
  | [] =>
      repos ← get_repos reg;
      let modules := foldl (fun modules repo => modules ++ Repo_list repo) [] repos in
      mret (sort_modules spec_real_name spec_version version_ltb modules false)
  end.

End GetModules.

Definition Version_ltb (v w : Version) : bool :=
  match Version_compare v w with Lt => true | _ => false end.

(** ** Creating a module *)

(** Data that can be written to [module.yml]. *)
Unset Elimination Schemes.
Inductive PyData :=
| DStr (s : string)
| DList (l : list PyData)
| DDict (d : list (string * PyData)).
Set Elimination Schemes.

(** What [create] does to the outside, in order. *)
Inductive CreateEvent :=
| GlobalHook (hook : string) (module : Module)
| EnsurePath (p : string)
| WriteFile (p : string) (data : string).

Section Create.

Variable normpath : list string -> string.
(** [os.path.isdir] on the file system as it is when [create] is called. *)
Variable isdir : string -> bool.
(** [module_header] of [cpenv/module.py] and [yaml.dump(dict(config),
    default_flow_style=False, sort_keys=False)]. *)
Variable module_header : string.
Variable yaml_dump : OrderedDict.t PyData -> string.
(** [hooks.run_global_hook('pre_create', module, config)]: the hook is
    handed the config object and may change it; the result is the config
    as the hook leaves it.  [hooks.run_global_hook('post_create', module)]. *)
Variable run_pre_create : Module -> OrderedDict.t PyData -> Outcome (OrderedDict.t PyData).
Variable run_post_create : Module -> Outcome unit.

(** [kwargs.get(k, d)] *)
Definition kwargs_get (kwargs : OrderedDict.t PyData) (k : string) (d : PyData) : PyData :=
  match List.find (fun kv => String.eqb k kv.1) kwargs with
  | Some kv => kv.2
  | None => d
  end.

Definition create_config (name version : string) (kwargs : OrderedDict.t PyData)
    : OrderedDict.t PyData :=
  OrderedDict.of_items
    [("name", DStr name);
     ("version", DStr version);
     ("description", kwargs_get kwargs "description" (DStr ""));
     ("author", kwargs_get kwargs "author" (DStr ""));
     ("email", kwargs_get kwargs "email" (DStr ""));
     ("requires", kwargs_get kwargs "requires" (DList []));
     ("environment", kwargs_get kwargs "environment" (DDict []))].

(** [create(where, name, version, **kwargs)]: the events up to the point
    where the call returns or raises, and its outcome. *)
Definition create (where_ name version : string) (kwargs : OrderedDict.t PyData)
    : list CreateEvent * Outcome Module :=
  let config := create_config name version kwargs in
  let where_ := normpath [where_] in
  if isdir where_ then ([], Raises OSError)
  else
    let module := Module_new where_ name version in
    match run_pre_create module config with
    | Returns config =>
        let events :=
          [GlobalHook "pre_create" module;
           EnsurePath where_;
           EnsurePath (where_ +:+ "/hooks");
           WriteFile (normpath [where_; "module.yml"])
                     (module_header +:+ yaml_dump config);
           GlobalHook "post_create" module] in
        match run_post_create module with
        | Returns _ => (events, Returns module)
        | Raises e => (events, Raises e)
        | Exits c => (events, Exits c)
        end
    | Raises e => ([GlobalHook "pre_create" module], Raises e)
    | Exits c => ([GlobalHook "pre_create" module], Exits c)
    end.

End Create.

(** ** The command line: choosing a repository *)

Section PromptForRepo.

(** The builtin [int] on what the user typed; [None] is its
    [ValueError]. *)
Variable py_int : string -> option Z.

(** The value of [default] after the loop over [enumerate(repos)]: the
    index of the last repository called [default_repo_name], unbound
    ([None]) when there is none. *)
Definition default_index (repos : list Repo) (default_repo_name : string) : option nat :=
  foldl (fun default ir => if String.eqb (repo_name ir.2) default_repo_name
                           then Some ir.1 else default)
        None (imap pair repos).

Definition index_or_raise {A} (l : list A) (i : Z) : Outcome A :=
  match Py.getitem l i with
  | Some x => Returns x
  | None => Raises IndexError
  end.

(** [prompt_for_repo(repos, message, default_repo_name)], with [choice]
    the line [cli.prompt] returns.  The prompt text is built from
    [default] before anything is read. *)
Definition prompt_for_repo (repos : list Repo) (default_repo_name : string)
    (choice : string) : Outcome Repo :=
  match default_index repos default_repo_name with
  | None => Raises UnboundLocalError
  | Some default =>
      if Py.truthy choice
      then match py_int choice with
           | None => Raises ValueError
           | Some choice =>
               if (choice >? Z.of_nat (length repos) - 1)%Z then Exits 1
               else index_or_raise repos choice
           end
      else index_or_raise repos (Z.of_nat default)
  end.

End PromptForRepo.

(** A decimal reader for the examples: an optional sign and digits. *)
Fixpoint digits_value (acc : Z) (s : string) : option Z :=
  match s with
  | EmptyString => Some acc
  | String c s' =>
      let n := nat_of_ascii c in
      if (48 <=? n)%nat && (n <=? 57)%nat
      then digits_value (10 * acc + Z.of_nat (n - 48))%Z s'
      else None
  end.

Definition example_int (s : string) : option Z :=
  match s with
  | EmptyString => None
  | String "-" (String c s') => Z.opp <$> digits_value 0 (String c s')
  | _ => digits_value 0 s
  end.

(** ** Removing, cloning and publishing modules *)

(** The [module] argument of [remove], [clone] and [publish]: a [Module],
    a [ModuleSpec], or a requirement string. *)
Inductive ModuleArg :=
| ArgModule (m : Module)
| ArgSpec (spec : ModuleSpec)
| ArgName (requirement : string).

(** [l[0]] *)
Definition first_or_raise {A} (l : list A) : Outcome A :=
  match l with
  | x :: _ => Returns x
  | [] => Raises IndexError
  end.

Section ApiModules.

Variable Repo_getattr : Repo -> string -> option PyAtom.
Variable normpath : list string -> string.
(** [Resolver(repos).resolve(requirements)], from [cpenv/resolver.py]. *)
Variable Resolver_resolve : list Repo -> list string -> Outcome (list ModuleSpec).
(** The methods of [Repo] and [Module] the functions call, from
    [cpenv/repos.py] and [cpenv/module.py], and [Module(path)]. *)
Variable Repo_find : Repo -> string -> Outcome (list ModuleSpec).
Variable Repo_download : Repo -> ModuleSpec -> string -> bool -> Outcome Module.
Variable Repo_upload : Repo -> Module -> bool -> Outcome Module.
Context {Removed : Type}.
Variable Module_remove : Module -> Outcome Removed.
Variable Repo_remove : Repo -> ModuleSpec -> Outcome Removed.
Variable Module_at : string -> Module.

(** A method called on what [get_repo] returned: [None] has none. *)
Definition on_repo {A} (repo : option Repo) (method : Repo -> Outcome A) : Outcome A :=
  match repo with
  | Some repo => method repo
  | None => Raises AttributeError
  end.

(** [remove(module, from_repo=None)]; a [from_repo] that is neither a
    string nor a [Repo] has no [find]. *)
Definition remove (module : ModuleArg) (from_repo : RepoArg) (reg : Registry)
    : Outcome Removed :=
  match module with
  | ArgModule m => Module_remove m
  | ArgSpec spec => Repo_remove (spec_repo spec) spec
  | ArgName requirement =>
      let remove_from repo :=
        found ← Repo_find repo requirement;
        module_spec ← first_or_raise found;
        Repo_remove repo module_spec in
      match from_repo with
      | ArgAtom ANone => Raises ValueError
      | ArgAtom (AStr _) =>
          from_repo ← get_repo Repo_getattr from_repo [] reg;
          on_repo from_repo remove_from
      | ArgAtom _ => Raises AttributeError
      | ArgRepo repo => remove_from repo
      end
  end.

(** [clone(module, from_repo=None, where=None, overwrite=False)];
    [module_spec] is bound only on the path taken for a requirement
    string. *)
Definition clone (module : ModuleArg) (from_repo : RepoArg) (where_ : option string)
    (overwrite : bool) (reg : Registry) : Outcome Module :=
  module_spec ←
    match module with
    | ArgName requirement =>
        match from_repo with
        | ArgAtom ANone =>
            repos ← get_repos reg;
            resolved ← Resolver_resolve repos [requirement];
            first_or_raise resolved
        | _ =>
            from_repo ← get_repo Repo_getattr from_repo [] reg;
            on_repo from_repo (fun repo =>
              found ← Repo_find repo requirement; first_or_raise found)
        end
    | _ => Raises UnboundLocalError
    end;
  let where_ := match where_ with
                | Some w => if Py.truthy w then w else "."
                | None => "."
                end in
  Repo_download (spec_repo module_spec) module_spec
                (normpath [where_; spec_real_name module_spec]) overwrite.

(** [publish(module, to_repo='home', overwrite=False)] *)
Definition publish (module : ModuleArg) (to_repo : RepoArg) (overwrite : bool)
    (reg : Registry) : Outcome Module :=
  to_repo ← get_repo Repo_getattr to_repo [] reg;
  module ← match module with
           | ArgName requirement =>
               repos ← get_repos reg;
               resolved ← Resolver_resolve repos [requirement];
               spec ← first_or_raise resolved;
               mret (inr spec)
           | ArgSpec spec => mret (inr spec)
           | ArgModule m => mret (inl m)
           end;
  module ← match module with
           | inr spec =>
               if repo_is_local (spec_repo spec) then mret (Module_at (spec_path spec))
               else Raises ValueError
           | inl m => mret m
           end;
  on_repo to_repo (fun repo => Repo_upload repo module overwrite).

End ApiModules.

(** * Verification *)

(** ** Facts about the list helpers *)

Section SortFacts.

Context {A : Type} (leb : A -> A -> bool).

Lemma insert_sorted_perm (x : A) (l : list A) : Py.insert_sorted leb x l ≡ₚ x :: l.
Proof.
  induction l as [|y l IH]; simpl; [done|].
  destruct (leb x y); [done|].
  rewrite IH. apply Permutation_swap.
Qed.

Lemma sort_with_perm (l : list A) : Py.sort_with leb l ≡ₚ l.
Proof.
  induction l as [|x l IH]; simpl; [done|].
  rewrite insert_sorted_perm. by rewrite IH.
Qed.

(** Sorting is stable, so an already sorted list is left as it is. *)
Lemma sort_with_sorted_id (l : list A) :
  Sorted (Py.ordered leb) l -> Py.sort_with leb l = l.
Proof.
  induction 1 as [|x l Hs IH Hhd]; simpl; [done|].
  rewrite IH. destruct Hhd as [|y l Hxy]; simpl; [done|].
  unfold Py.ordered in Hxy. by rewrite Hxy.
Qed.

Hypothesis leb_total : forall x y, leb x y = false -> leb y x = true.

Lemma insert_sorted_HdRel (a x : A) (l : list A) :
  Py.ordered leb a x -> HdRel (Py.ordered leb) a l ->
  HdRel (Py.ordered leb) a (Py.insert_sorted leb x l).
Proof.
  intros Hax Hal. destruct l as [|y l]; simpl; [by constructor|].
  destruct (leb x y); constructor; [done|].
  by apply HdRel_inv in Hal.
Qed.

Lemma insert_sorted_Sorted (x : A) (l : list A) :
  Sorted (Py.ordered leb) l -> Sorted (Py.ordered leb) (Py.insert_sorted leb x l).
Proof.
  induction 1 as [|y l Hs IH Hhd]; simpl; [by repeat constructor|].
  destruct (leb x y) eqn:E.
  - constructor; [by constructor|]. by constructor.
  - constructor; [done|]. apply insert_sorted_HdRel; [|done].
    by apply leb_total.
Qed.

Lemma sort_with_Sorted (l : list A) : Sorted (Py.ordered leb) (Py.sort_with leb l).
Proof.
  induction l as [|x l IH]; simpl; [constructor|]. by apply insert_sorted_Sorted.
Qed.

End SortFacts.

Section SortByKey.

Context {A : Type} (key : A -> string).

#[local] Instance key_le_trans : Transitive (Py.key_le key).
Proof.
  intros x y z. unfold Py.key_le, Py.ordered, Py.key_leb.
  intros Hxy%Is_true_true Hyz%Is_true_true. apply Is_true_true.
  by apply (transitivity (R:=String.le) (y:=key y)).
Qed.

Lemma key_leb_total (x y : A) : Py.key_leb key x y = false -> Py.key_leb key y x = true.
Proof.
  unfold Py.key_leb. intros H.
  destruct (String.leb_total (key x) (key y)) as [Hle|Hle]; congruence.
Qed.

Lemma sort_by_perm (l : list A) : Py.sort_by key l ≡ₚ l.
Proof. apply sort_with_perm. Qed.

Lemma sort_by_sorted (l : list A) : Sorted (Py.key_le key) (Py.sort_by key l).
Proof. apply sort_with_Sorted, key_leb_total. Qed.

Lemma sort_by_sorted_id (l : list A) : Sorted (Py.key_le key) l -> Py.sort_by key l = l.
Proof. apply sort_with_sorted_id. Qed.

End SortByKey.

Section RemoveFacts.

Context {A : Type} (eqb : A -> A -> bool).

Lemma remove_sublist (x : A) (l : list A) : Py.remove eqb x l `sublist_of` l.
Proof.
  induction l as [|y l IH]; simpl; [done|].
  destruct (eqb x y); [by apply sublist_cons|by apply sublist_skip].
Qed.

Lemma sublist_StronglySorted (R : relation A) (l1 l2 : list A) :
  l1 `sublist_of` l2 -> StronglySorted R l2 -> StronglySorted R l1.
Proof.
  induction 1 as [|x l1 l2 Hsub IH|x l1 l2 Hsub IH]; intros Hs; [done|..].
  - apply StronglySorted_inv in Hs as [Hs Hall]. constructor; [by apply IH|].
    apply Forall_forall. intros y Hy. rewrite Forall_forall in Hall.
    apply Hall. by eapply elem_of_sublist.
  - apply StronglySorted_inv in Hs as [Hs _]. by apply IH.
Qed.

Lemma remove_sorted (R : relation A) `{!Transitive R} (x : A) (l : list A) :
  Sorted R l -> Sorted R (Py.remove eqb x l).
Proof.
  intros Hs. apply StronglySorted_Sorted.
  eapply sublist_StronglySorted; [apply remove_sublist|].
  by apply Sorted_StronglySorted.
Qed.

Lemma contains_elem_of (x : A) (l : list A) :
  (forall y, eqb y y = true) -> x ∈ l -> Py.contains eqb x l = true.
Proof.
  intros Hrefl Hin. unfold Py.contains. apply existsb_exists.
  exists x. split; [by apply list_elem_of_In|apply Hrefl].
Qed.

Lemma contains_perm (x : A) (l1 l2 : list A) :
  l1 ≡ₚ l2 -> Py.contains eqb x l1 = Py.contains eqb x l2.
Proof.
  unfold Py.contains. induction 1; simpl; try congruence.
  - destruct (eqb x y), (eqb x x0); done.
Qed.

Lemma contains_false (x : A) (l : list A) :
  Py.contains eqb x l = false -> forall y, y ∈ l -> eqb x y = false.
Proof.
  unfold Py.contains. intros H y Hy.
  destruct (eqb x y) eqn:E; [|done].
  assert (existsb (eqb x) l = true) as Ht; [|congruence].
  apply existsb_exists. exists y. split; [by apply list_elem_of_In|done].
Qed.

End RemoveFacts.

(** ** Facts about the active-module registry *)

Section ActiveFacts.

Variable pathsep : string.
Variable Module_eqb : Module -> Module -> bool.
Hypothesis Module_eqb_refl : forall m, Module_eqb m m = true.

#[local] Abbreviation add := (add_active_module pathsep Module_eqb).
#[local] Abbreviation rem := (remove_active_module pathsep Module_eqb).
#[local] Abbreviation run := (run_ops pathsep Module_eqb).
#[local] Abbreviation step := (run_op pathsep Module_eqb).

Lemma run_ops_snoc (ops : list ActiveOp) (op : ActiveOp) (st : ActiveState) :
  run (ops ++ [op]) st = step (run ops st) op.
Proof. unfold run_ops. by rewrite foldl_app. Qed.

(** Both functions leave the variable equal to the serialized registry. *)
Lemma run_op_environ (st : ActiveState) (op : ActiveOp) :
  environ (step st op) !! "CPENV_ACTIVE_MODULES"
  = Some (serialize pathsep (_active_modules (step st op))).
Proof. destruct op; simpl; apply lookup_insert_eq. Qed.

Lemma run_op_environ_other (st : ActiveState) (op : ActiveOp) (k : string) :
  k <> "CPENV_ACTIVE_MODULES" -> environ (step st op) !! k = environ st !! k.
Proof. intros Hk. destruct op; simpl; by rewrite lookup_insert_ne. Qed.

Lemma add_sorted (m : Module) (st : ActiveState) :
  Sorted (Py.key_le real_name) (_active_modules (add m st)).
Proof. simpl. apply sort_by_sorted. Qed.

Lemma add_elem_of (m : Module) (st : ActiveState) :
  Py.contains Module_eqb m (_active_modules (add m st)) = true.
Proof.
  simpl. rewrite (contains_perm _ _ _ _ (sort_by_perm _ _)).
  destruct (Py.contains Module_eqb m (_active_modules st)) eqn:E; [done|].
  apply contains_elem_of; [done|]. apply elem_of_app. right. by left.
Qed.

Lemma add_nodup (m : Module) (st : ActiveState) :
  NoDup (_active_modules st) -> NoDup (_active_modules (add m st)).
Proof.
  intros Hnd. simpl. rewrite sort_by_perm.
  destruct (Py.contains Module_eqb m (_active_modules st)) eqn:E; [done|].
  apply NoDup_app. split_and!; [done| |apply NoDup_singleton].
  intros x Hx ->%list_elem_of_singleton.
  by rewrite (contains_elem_of _ _ _ Module_eqb_refl Hx) in E.
Qed.

Lemma rem_nodup (m : Module) (st : ActiveState) :
  NoDup (_active_modules st) -> NoDup (_active_modules (rem m st)).
Proof.
  intros Hnd. simpl.
  destruct (Py.contains Module_eqb m (_active_modules st)); [|done].
  apply (sublist_NoDup _ _ Hnd), remove_sublist.
Qed.

Lemma rem_sorted (m : Module) (st : ActiveState) :
  Sorted (Py.key_le real_name) (_active_modules st) ->
  Sorted (Py.key_le real_name) (_active_modules (rem m st)).
Proof.
  intros Hs. simpl.
  destruct (Py.contains Module_eqb m (_active_modules st)); [|done].
  by apply remove_sorted; [apply key_le_trans|].
Qed.

(** The registry reached from a duplicate-free, sorted one stays so. *)
Lemma run_ops_invariant (ops : list ActiveOp) (st : ActiveState) :
  NoDup (_active_modules st) ->
  Sorted (Py.key_le real_name) (_active_modules st) ->
  NoDup (_active_modules (run ops st))
  /\ Sorted (Py.key_le real_name) (_active_modules (run ops st)).
Proof.
  revert st. induction ops as [|op ops IH]; intros st Hnd Hs; [done|].
  simpl. apply IH; destruct op; simpl run_op.
  - by apply add_nodup.
  - by apply rem_nodup.
  - apply add_sorted.
  - by apply rem_sorted.
Qed.

(** Adding a module a second time changes nothing. *)
Lemma add_idempotent (m : Module) (st : ActiveState) :
  add m (add m st) = add m st.
Proof.
  unfold add_active_module at 1. cbv zeta.
  rewrite add_elem_of.
  rewrite (sort_by_sorted_id _ _ (add_sorted m st)).
  simpl. by rewrite insert_insert_eq.
Qed.

(** When equal [real_name]s make modules equal, the names stay distinct. *)
Lemma run_ops_names_nodup (ops : list ActiveOp) (st : ActiveState) :
  (forall m1 m2, real_name m1 = real_name m2 -> Module_eqb m1 m2 = true) ->
  NoDup (real_name <$> _active_modules st) ->
  NoDup (real_name <$> _active_modules (run ops st)).
Proof.
  intros Hname. revert st. induction ops as [|op ops IH]; intros st Hnd; [done|].
  simpl. apply IH. destruct op as [m|m]; simpl.
  - rewrite sort_by_perm.
    destruct (Py.contains Module_eqb m (_active_modules st)) eqn:E; [done|].
    rewrite fmap_app. apply NoDup_app. split_and!; [done| |apply NoDup_singleton].
    intros x Hx ->%list_elem_of_singleton.
    apply list_elem_of_fmap in Hx as (y & Hy & Hin).
    pose proof (contains_false _ _ _ E y Hin) as Hf.
    rewrite Hname in Hf; done.
  - destruct (Py.contains Module_eqb m (_active_modules st)); [|done].
    apply (sublist_NoDup _ _ Hnd), fmap_sublist, remove_sublist.
Qed.

End ActiveFacts.

(** ** The claims about the active-module registry *)

(** C4, as stated, fails: with modules compared by their root path, the
    same name and version activated from two repositories is registered
    twice, and the variable lists its [real_name] twice. *)
Lemma active_registry_duplicate_real_name :
  let st := run_ops ":" Module_path_eqb [Add a_home; Add a_user] initial_active in
  real_name <$> _active_modules st = ["a-1.0"; "a-1.0"]
  /\ environ st !! "CPENV_ACTIVE_MODULES" = Some "a-1.0:a-1.0"
  /\ ~ NoDup (real_name <$> _active_modules st).
Proof.
  split_and!; [by vm_compute..|].
  vm_compute. intros H. apply NoDup_cons_1_1 in H. apply H. by left.
Qed.

(** C4 (amended): [add_active_module] is idempotent, so activating the
    same module twice from an empty registry leaves it registered once and
    the variable holding its [real_name] once; after every sequence of
    [add_active_module] and [remove_active_module] calls the registry
    never holds the same module twice, and never two entries with the same
    [real_name] when modules with equal [real_name]s compare equal. *)
Theorem add_active_module_idempotent_registry_nodup :
  forall (pathsep : string) (Module_eqb : Module -> Module -> bool),
    (forall m, Module_eqb m m = true) ->
    forall (m : Module) (st : ActiveState) (ops : list ActiveOp),
      let add := add_active_module pathsep Module_eqb in
      let reached := run_ops pathsep Module_eqb ops initial_active in
      add m (add m st) = add m st
      /\ _active_modules (add m (add m initial_active)) = [m]
      /\ environ (add m (add m initial_active)) !! "CPENV_ACTIVE_MODULES"
          = Some (real_name m)
      /\ NoDup (_active_modules reached)
      /\ ((forall m1 m2, real_name m1 = real_name m2 -> Module_eqb m1 m2 = true) ->
          NoDup (real_name <$> _active_modules reached)).
Proof.
  intros pathsep Module_eqb Hrefl m st ops add reached. subst add reached.
  split_and!.
  - by apply add_idempotent.
  - rewrite add_idempotent by done. done.
  - rewrite add_idempotent by done. simpl. by rewrite lookup_insert_eq.
  - apply run_ops_invariant; [done|constructor|constructor].
  - intros Hname. apply run_ops_names_nodup; [done|constructor].
Qed.

Lemma add_active_module_idempotent_registry_nodup_witness :
  _active_modules
    (add_active_module ":" Module_name_eqb a_home
       (add_active_module ":" Module_name_eqb a_home initial_active)) = [a_home]
  /\ NoDup (real_name <$> _active_modules
              (run_ops ":" Module_name_eqb [Add a_home; Add a_user] initial_active)).
Proof.
  destruct (add_active_module_idempotent_registry_nodup ":" Module_name_eqb
              (fun m => String.eqb_refl (real_name m)) a_home initial_active
              [Add a_home; Add a_user]) as (_ & H1 & _ & _ & H2).
  split; [exact H1|]. apply H2. intros m1 m2 Heq. unfold Module_name_eqb.
  rewrite Heq. apply String.eqb_refl.
Defined.

(** C5, as stated, fails: activating [b-1.0] and then [a-1.0] leaves the
    variable in [real_name] order, not in activation order. *)
Lemma active_modules_variable_not_activation_order :
  let st := run_ops ":" Module_path_eqb [Add b_home; Add a_home] initial_active in
  environ st !! "CPENV_ACTIVE_MODULES" = Some "a-1.0:b-1.0"
  /\ environ st !! "CPENV_ACTIVE_MODULES" <> Some (serialize ":" [b_home; a_home]).
Proof. split; [by vm_compute|]. vm_compute. congruence. Qed.

(** C5 (amended): every call of [add_active_module] or
    [remove_active_module] rewrites the variable to the path-separator
    join of the [real_name]s of the registry; after every non-empty
    sequence of calls from the empty registry that list names each active
    module once, in ascending [real_name] order. *)
Theorem active_modules_variable_sorted_serialization :
  forall (pathsep : string) (Module_eqb : Module -> Module -> bool),
    (forall m, Module_eqb m m = true) ->
    forall (ops : list ActiveOp) (op : ActiveOp) (st0 : ActiveState),
      let st := run_ops pathsep Module_eqb (ops ++ [op]) initial_active in
      environ (run_op pathsep Module_eqb st0 op) !! "CPENV_ACTIVE_MODULES"
        = Some (Py.join pathsep
                  (real_name <$> _active_modules (run_op pathsep Module_eqb st0 op)))
      /\ environ st !! "CPENV_ACTIVE_MODULES"
          = Some (Py.join pathsep (real_name <$> _active_modules st))
      /\ NoDup (_active_modules st)
      /\ Sorted (Py.key_le real_name) (_active_modules st).
Proof.
  intros pathsep Module_eqb Hrefl ops op st0 st. subst st.
  split; [apply run_op_environ|].
  split; [rewrite run_ops_snoc; apply run_op_environ|].
  apply run_ops_invariant; [done|constructor|constructor].
Qed.

Lemma active_modules_variable_sorted_serialization_witness :
  environ (run_ops ":" Module_path_eqb ([Add b_home] ++ [Add a_home]) initial_active)
    !! "CPENV_ACTIVE_MODULES"
  = Some (Py.join ":" (real_name <$> _active_modules
            (run_ops ":" Module_path_eqb ([Add b_home] ++ [Add a_home]) initial_active))).
Proof.
  exact (proj1 (proj2 (active_modules_variable_sorted_serialization ":" Module_path_eqb
                  (fun m => String.eqb_refl (path m)) [Add b_home] (Add a_home)
                  initial_active))).
Defined.

(** C6, as stated, fails: two modules with the same [real_name] are both
    serialized, so the variable has a duplicate entry. *)
Lemma add_active_module_duplicate_entry :
  let st := add_active_module ":" Module_path_eqb a_user
              (add_active_module ":" Module_path_eqb b_home
                 (add_active_module ":" Module_path_eqb a_home initial_active)) in
  environ st !! "CPENV_ACTIVE_MODULES" = Some "a-1.0:a-1.0:b-1.0"
  /\ ~ NoDup (real_name <$> _active_modules st).
Proof.
  split; [by vm_compute|].
  vm_compute. intros H. apply NoDup_cons_1_1 in H. apply H. by left.
Qed.

(** C6 (amended): after every call to [add_active_module] the variable
    equals the serialization of the registry, which is sorted ascending by
    [real_name]; no module is listed twice when none was before the call. *)
Theorem add_active_module_serializes_sorted :
  forall (pathsep : string) (Module_eqb : Module -> Module -> bool),
    (forall m, Module_eqb m m = true) ->
    forall (m : Module) (st : ActiveState),
      let st' := add_active_module pathsep Module_eqb m st in
      environ st' !! "CPENV_ACTIVE_MODULES" = Some (serialize pathsep (_active_modules st'))
      /\ Sorted (Py.key_le real_name) (_active_modules st')
      /\ _active_modules st' ≡ₚ
           (if Py.contains Module_eqb m (_active_modules st)
            then _active_modules st else _active_modules st ++ [m])
      /\ (NoDup (_active_modules st) -> NoDup (_active_modules st')).
Proof.
  intros pathsep Module_eqb Hrefl m st st'. subst st'. split_and!.
  - apply (run_op_environ pathsep Module_eqb st (Add m)).
  - apply add_sorted.
  - simpl. apply sort_by_perm.
  - by apply add_nodup.
Qed.

Lemma add_active_module_serializes_sorted_witness :
  Sorted (Py.key_le real_name)
    (_active_modules (add_active_module ":" Module_path_eqb a_home
                        (add_active_module ":" Module_path_eqb b_home initial_active)))
  /\ NoDup (_active_modules (add_active_module ":" Module_path_eqb a_home
                               (add_active_module ":" Module_path_eqb b_home initial_active))).
Proof.
  destruct (add_active_module_serializes_sorted ":" Module_path_eqb
              (fun m => String.eqb_refl (path m)) a_home
              (add_active_module ":" Module_path_eqb b_home initial_active))
    as (_ & Hs & _ & Hnd).
  split; [exact Hs|]. apply Hnd. vm_compute. apply NoDup_singleton.
Defined.

(** ** The order on versions *)

Lemma Version_compare_eq (v1 v2 : Version) : Version_compare v1 v2 = Eq -> v1 = v2.
Proof.
  revert v2. induction v1 as [|x v1 IH]; intros [|y v2]; simpl; try done.
  destruct (Nat.compare_spec x y) as [Hxy|Hxy|Hxy]; try done.
  intros Hv. subst. f_equal. by apply IH.
Qed.

Lemma Version_compare_refl (v : Version) : Version_compare v v = Eq.
Proof. induction v as [|x v IH]; simpl; [done|]. by rewrite Nat.compare_refl. Qed.

Lemma Version_compare_antisym (v1 v2 : Version) :
  Version_compare v2 v1 = CompOpp (Version_compare v1 v2).
Proof.
  revert v2. induction v1 as [|x v1 IH]; intros [|y v2]; simpl; try done.
  rewrite (Nat.compare_antisym x y). destruct (x ?= y); simpl; auto.
Qed.

Lemma Version_compare_lt_trans (a b c : Version) :
  Version_compare a b = Lt -> Version_compare b c = Lt -> Version_compare a c = Lt.
Proof.
  revert b c. induction a as [|x a IH]; intros [|y b] [|z c]; simpl; try done.
  destruct (Nat.compare_spec x y), (Nat.compare_spec y z), (Nat.compare_spec x z);
    subst; try done; try lia; eauto.
Qed.

Lemma Version_leb_refl (v : Version) : Version_leb v v = true.
Proof. unfold Version_leb. by rewrite Version_compare_refl. Qed.

Lemma Version_leb_total (a b : Version) : Version_leb a b = false -> Version_leb b a = true.
Proof.
  unfold Version_leb. rewrite (Version_compare_antisym a b).
  by destruct (Version_compare a b).
Qed.

Lemma Version_leb_trans (a b c : Version) :
  Version_leb a b = true -> Version_leb b c = true -> Version_leb a c = true.
Proof.
  unfold Version_leb.
  destruct (Version_compare a b) eqn:Hab; [| |done].
  - apply Version_compare_eq in Hab as ->. done.
  - destruct (Version_compare b c) eqn:Hbc; [| |done].
    + apply Version_compare_eq in Hbc as ->. by rewrite Hab.
    + by rewrite (Version_compare_lt_trans a b c).
Qed.

Lemma Version_eqb_eq (v w : Version) : Version_eqb v w = true -> v = w.
Proof.
  unfold Version_eqb. destruct (Version_compare v w) eqn:H; try done.
  intros _. by apply Version_compare_eq.
Qed.

Lemma existsb_eqb_false (n : string) (l : list string) :
  existsb (String.eqb n) l = false -> n ∉ l.
Proof.
  intros H Hin. apply list_elem_of_In in Hin.
  assert (existsb (String.eqb n) l = true) as Ht; [|congruence].
  apply existsb_exists. exists n. split; [done|apply String.eqb_refl].
Qed.

(** ** Facts about the resolver *)

Section ResolverFacts.

Import Resolver.

Variable list_modules : Repo -> list ModuleSpec.

#[local] Abbreviation find := (Resolver.find list_modules).
#[local] Abbreviation search := (Resolver.search list_modules).
#[local] Abbreviation all_modules := (Resolver.all_modules list_modules).
#[local] Abbreviation expand := (Resolver.expand list_modules).
#[local] Abbreviation resolve := (Resolver.resolve list_modules).
#[local] Abbreviation well_formed := (Resolver.well_formed list_modules).
#[local] Abbreviation step_ok := (Resolver.step_ok list_modules).

Lemma version_geb_total (x y : ModuleSpec) :
  version_geb x y = false -> version_geb y x = true.
Proof. apply Version_leb_total. Qed.

#[local] Instance version_geb_trans : Transitive (Py.ordered version_geb).
Proof.
  intros x y z. unfold Py.ordered, version_geb. intros Hxy Hyz.
  by apply (Version_leb_trans _ (spec_version y)).
Qed.

Lemma find_elem_of (repo : Repo) (r : Requirement) (m : ModuleSpec) :
  m ∈ find repo r <-> m ∈ list_modules repo /\ matches r m = true.
Proof.
  unfold Resolver.find, sort_desc. rewrite sort_with_perm.
  rewrite !list_elem_of_In. apply filter_In.
Qed.

Lemma find_nil (repo : Repo) (r : Requirement) :
  find repo r = [] <-> forall m, m ∈ list_modules repo -> matches r m = false.
Proof.
  split.
  - intros Hnil m Hm. destruct (matches r m) eqn:E; [|done].
    assert (m ∈ find repo r) as Hin by by apply find_elem_of.
    rewrite Hnil in Hin. by apply elem_of_nil in Hin.
  - intros Hnone. destruct (find repo r) as [|m l] eqn:E; [done|].
    assert (m ∈ find repo r) as Hin by (rewrite E; by left).
    apply find_elem_of in Hin as [Hm Ht]. rewrite (Hnone m Hm) in Ht. done.
Qed.

(** The head of [find] is a match of highest version. *)
Lemma find_head_max (repo : Repo) (r : Requirement) (m : ModuleSpec) (rest : list ModuleSpec) :
  find repo r = m :: rest ->
  m ∈ list_modules repo /\ matches r m = true
  /\ forall m', m' ∈ list_modules repo -> matches r m' = true ->
       Version_leb (spec_version m') (spec_version m) = true.
Proof.
  intros Hfind.
  assert (m ∈ find repo r) as Hm by (rewrite Hfind; by left).
  apply find_elem_of in Hm as [Hm Hmatch]. split_and!; [done..|].
  intros m' Hm' Hmatch'.
  assert (m' ∈ find repo r) as Hin by by apply find_elem_of.
  pose proof (sort_with_Sorted version_geb version_geb_total
                (List.filter (matches r) (list_modules repo))) as Hs.
  fold (sort_desc (List.filter (matches r) (list_modules repo))) in Hs.
  fold (find repo r) in Hs. rewrite Hfind in Hs, Hin.
  apply Sorted_extends in Hs; [|apply version_geb_trans].
  apply elem_of_cons in Hin as [->|Hin]; [apply Version_leb_refl|].
  rewrite Forall_forall in Hs. by apply Hs.
Qed.

Lemma search_Some_inv (repos : list Repo) (r : Requirement) (m : ModuleSpec) :
  search repos r = Some m ->
  exists l1 repo l2 rest,
    repos = l1 ++ repo :: l2
    /\ (forall repo', repo' ∈ l1 -> find repo' r = [])
    /\ find repo r = m :: rest.
Proof.
  induction repos as [|repo repos IH]; simpl; [done|].
  destruct (find repo r) as [|m' rest] eqn:E.
  - intros (l1 & repo0 & l2 & rest & -> & Hl1 & Hfind)%IH.
    exists (repo :: l1), repo0, l2, rest. split_and!; [done| |done].
    intros repo' [->|Hin]%elem_of_cons; auto.
  - intros [= ->]. exists [], repo, repos, rest. split_and!; [done| |done].
    intros repo' Hin. by apply elem_of_nil in Hin.
Qed.

Lemma search_first (l1 : list Repo) (repo : Repo) (l2 : list Repo) (r : Requirement)
    (m : ModuleSpec) (rest : list ModuleSpec) :
  (forall repo', repo' ∈ l1 -> find repo' r = []) ->
  find repo r = m :: rest ->
  search (l1 ++ repo :: l2) r = Some m.
Proof.
  intros Hl1 Hfind. induction l1 as [|repo' l1 IH]; simpl.
  - by rewrite Hfind.
  - rewrite (Hl1 repo') by by left. apply IH. intros ? ?. apply Hl1. by right.
Qed.

Lemma search_None (repos : list Repo) (r : Requirement) :
  (forall repo, repo ∈ repos -> find repo r = []) -> search repos r = None.
Proof.
  induction repos as [|repo repos IH]; intros Hall; simpl; [done|].
  rewrite (Hall repo) by by left. apply IH. intros ? ?. apply Hall. by right.
Qed.

Lemma elem_of_all_modules (repos : list Repo) (repo : Repo) (m : ModuleSpec) :
  repo ∈ repos -> m ∈ list_modules repo -> m ∈ all_modules repos.
Proof.
  intros Hrepo Hm. unfold Resolver.all_modules. apply list_elem_of_join.
  exists (list_modules repo). split; [done|]. apply list_elem_of_fmap. eauto.
Qed.

Lemma search_provides (repos : list Repo) (r : Requirement) (m : ModuleSpec) :
  search repos r = Some m -> m ∈ all_modules repos /\ provides r m.
Proof.
  intros (l1 & repo & l2 & rest & -> & _ & Hfind)%search_Some_inv.
  apply find_head_max in Hfind as (Hm & Hmatch & _).
  split.
  - apply (elem_of_all_modules _ repo); [|done]. apply elem_of_app. right. by left.
  - unfold matches in Hmatch. apply andb_true_iff in Hmatch as [Hn Hs].
    split; [by apply String.eqb_eq|done].
Qed.

(** *** The invariant of the expansion *)

Variable repos : list Repo.

Lemma well_formed_nil : well_formed repos [].
Proof.
  split; [constructor| |].
  - intros m Hm. by apply elem_of_nil in Hm.
  - intros i m Hi. by rewrite lookup_nil in Hi.
Qed.

Lemma dependency_ordered_snoc (l : list ModuleSpec) (m : ModuleSpec) :
  dependency_ordered l ->
  (forall D, D ∈ spec_requires m -> exists d, d ∈ l /\ provides D d) ->
  dependency_ordered (l ++ [m]).
Proof.
  intros Hord Hdeps i x Hi D HD.
  apply lookup_snoc_Some in Hi as [[Hlt Hi]|[-> ->]].
  - destruct (Hord i x Hi D HD) as (j & d & Hj & Hd & Hprov).
    exists j, d. split_and!; [done| |done]. by apply lookup_app_l_Some.
  - destruct (Hdeps D HD) as (d & Hd & Hprov).
    apply list_elem_of_lookup in Hd as [j Hj].
    exists j, d. split_and!; [by eapply lookup_lt_Some| |done].
    by apply lookup_app_l_Some.
Qed.

Lemma lookup_name_Some (n : string) (acc : list ModuleSpec) (m : ModuleSpec) :
  lookup_name n acc = Some m -> m ∈ acc /\ spec_name m = n.
Proof.
  intros [Hin Heq]%find_some. split; [by apply list_elem_of_In|].
  by apply String.eqb_eq.
Qed.

Lemma lookup_name_None (n : string) (acc : list ModuleSpec) :
  lookup_name n acc = None -> n ∉ names acc.
Proof.
  intros Hnone (m & -> & Hm)%list_elem_of_fmap.
  apply list_elem_of_In in Hm.
  pose proof (find_none _ _ Hnone m Hm) as Hf. simpl in Hf.
  by rewrite String.eqb_refl in Hf.
Qed.

Lemma expand_all_ok (path : list string)
    (step : list ModuleSpec -> Requirement -> Resolution) :
  step_ok repos path step ->
  forall rs acc acc',
    well_formed repos acc -> expand_all step rs acc = Resolved acc' ->
    exists ext, acc' = acc ++ ext
      /\ well_formed repos acc'
      /\ (forall x, x ∈ ext -> spec_name x ∉ path)
      /\ (forall r, r ∈ rs -> exists d, d ∈ acc' /\ provides r d).
Proof.
  intros Hstep rs. induction rs as [|r rs IH]; intros acc acc' Hwf Heq; simpl in Heq.
  - injection Heq as <-. exists []. rewrite app_nil_r. split_and!; [done..| |].
    + intros x Hx. by apply elem_of_nil in Hx.
    + intros r Hr. by apply elem_of_nil in Hr.
  - destruct (step acc r) as [acc1| |] eqn:Hr; try discriminate.
    destruct (Hstep acc r acc1 Hwf Hr) as (ext1 & -> & Hwf1 & Hpath1 & d & Hd & Hprov).
    destruct (IH _ _ Hwf1 Heq) as (ext2 & -> & Hwf2 & Hpath2 & Hrs).
    exists (ext1 ++ ext2). rewrite app_assoc. split_and!; [done..| |].
    + intros x [Hx|Hx]%elem_of_app; auto.
    + intros r' [->|Hr']%elem_of_cons; [|by apply Hrs].
      exists d. split; [|done]. apply elem_of_app. by left.
Qed.

Lemma expand_ok (fuel : nat) (path : list string) :
  step_ok repos path (expand fuel repos path).
Proof.
  revert path. induction fuel as [|fuel IH]; intros path acc r acc' Hwf Heq;
    simpl in Heq; [discriminate|].
  destruct (existsb (String.eqb (req_name r)) path) eqn:Hpath; [discriminate|].
  apply existsb_eqb_false in Hpath.
  destruct (lookup_name (req_name r) acc) as [m|] eqn:Hlook.
  - destruct (satisfies (req_constraint r) (spec_version m)) eqn:Hsat; [|discriminate].
    injection Heq as <-. apply lookup_name_Some in Hlook as [Hm Hname].
    exists []. rewrite app_nil_r. split_and!; [done..| |].
    + intros x Hx. by apply elem_of_nil in Hx.
    + exists m. by repeat split.
  - destruct (search repos r) as [m|] eqn:Hsearch; [|discriminate].
    destruct (expand_all _ _ _) as [acc1| |] eqn:Hall; try discriminate.
    injection Heq as <-.
    apply (expand_all_ok (req_name r :: path)) in Hall; [|apply IH|done].
    destruct Hall as (ext & -> & Hwf1 & Hext & Hdeps).
    apply search_provides in Hsearch as [Hfrom Hprov].
    apply lookup_name_None in Hlook.
    exists (ext ++ [m]). rewrite app_assoc. split_and!; [done| | |].
    + destruct Hwf1 as [Hnd1 Hfrom1 Hord1]. split.
      * unfold names. rewrite fmap_app. apply NoDup_app. split_and!; [done| |].
        -- intros n Hn Hn'%list_elem_of_singleton. subst n.
           destruct Hprov as [Hname _].
           fold (names (acc ++ ext)) in Hn. unfold names in Hn.
           rewrite fmap_app in Hn. apply elem_of_app in Hn as [Hn|Hn].
           ++ apply Hlook. by rewrite <- Hname.
           ++ apply list_elem_of_fmap in Hn as (x & Hx & Hin).
              apply (Hext x Hin). rewrite <- Hx, Hname. by left.
        -- apply NoDup_singleton.
      * intros x [Hx|Hx%list_elem_of_singleton]%elem_of_app; subst; auto.
      * by apply dependency_ordered_snoc.
    + intros x [Hx|Hx%list_elem_of_singleton]%elem_of_app.
      * intros Hin. apply (Hext x Hx). by right.
      * subst x. destruct Hprov as [-> _]. done.
    + exists m. split; [|done]. apply elem_of_app. right. by left.
Qed.

(** A successful resolution is well formed and provides a module for
    every requirement. *)
Lemma resolve_ok (rs : list Requirement) (out : list ModuleSpec) :
  resolve repos rs = Resolved out ->
  well_formed repos out /\ forall r, r ∈ rs -> exists d, d ∈ out /\ provides r d.
Proof.
  intros Heq. unfold Resolver.resolve in Heq.
  apply (expand_all_ok []) in Heq; [|apply expand_ok|apply well_formed_nil].
  destruct Heq as (ext & _ & Hwf & _ & Hrs). done.
Qed.

(** *** Termination: the fuel of [resolve] is never used up *)

Lemma expand_all_fuel (step : list ModuleSpec -> Requirement -> Resolution)
    (rs : list Requirement) (acc : list ModuleSpec) :
  (forall acc r, step acc r <> OutOfFuel) -> expand_all step rs acc <> OutOfFuel.
Proof.
  intros Hstep. revert acc. induction rs as [|r rs IH]; intros acc; simpl; [done|].
  destruct (step acc r) eqn:E; [apply IH|done|by apply Hstep in E].
Qed.

Lemma expand_fuel (fuel : nat) (path : list string) (acc : list ModuleSpec)
    (r : Requirement) :
  NoDup path ->
  (forall n, n ∈ path -> n ∈ names (all_modules repos)) ->
  length (all_modules repos) < fuel + length path ->
  expand fuel repos path acc r <> OutOfFuel.
Proof.
  revert path acc r. induction fuel as [|fuel IH]; intros path acc r Hnd Hsub Hlen.
  - exfalso. pose proof (submseteq_length _ _ (NoDup_submseteq _ _ Hnd Hsub)) as Hle.
    unfold names in Hle. rewrite length_fmap in Hle. simpl in Hlen. lia.
  - simpl. destruct (existsb (String.eqb (req_name r)) path) eqn:Hpath; [done|].
    apply existsb_eqb_false in Hpath.
    destruct (lookup_name (req_name r) acc) as [m|];
      [by destruct (satisfies (req_constraint r) (spec_version m))|].
    destruct (search repos r) as [m|] eqn:Hsearch; [|done].
    apply search_provides in Hsearch as [Hfrom [Hname _]].
    assert (expand_all (expand fuel repos (req_name r :: path)) (spec_requires m) acc
            <> OutOfFuel) as Hne.
    { apply expand_all_fuel. intros acc0 r0. apply IH.
      - by constructor.
      - intros n [->|Hn]%elem_of_cons; [|by apply Hsub].
        rewrite <- Hname. apply list_elem_of_fmap. eauto.
      - simpl. lia. }
    by destruct (expand_all _ _ _).
Qed.

Lemma resolve_terminates (rs : list Requirement) : resolve repos rs <> OutOfFuel.
Proof.
  apply expand_all_fuel. intros acc r. apply expand_fuel.
  - constructor.
  - intros n Hn. by apply elem_of_nil in Hn.
  - simpl. lia.
Qed.

End ResolverFacts.

(** ** The claims about the resolver *)

Section ResolverClaims.

Import Resolver.

Variable list_modules : Repo -> list ModuleSpec.

#[local] Abbreviation resolve_in := (Resolver.resolve list_modules).

Lemma provides_matches (r : Requirement) (d : ModuleSpec) :
  provides r d <-> matches r d = true.
Proof.
  unfold provides, matches. rewrite andb_true_iff, String.eqb_eq. done.
Qed.

(** A single requirement: the module found by [search] closes the output. *)
Lemma resolve_single (repos : list Repo) (r : Requirement) (m : ModuleSpec) :
  search list_modules repos r = Some m ->
  (forall out, resolve_in repos [r] = Resolved out -> exists deps, out = deps ++ [m])
  /\ (spec_requires m = [] -> resolve_in repos [r] = Resolved [m]).
Proof.
  intros Hsearch. unfold Resolver.resolve. simpl. rewrite Hsearch. split.
  - intros out. destruct (expand_all _ _ _) as [acc| |]; try done.
    intros [= <-]. by exists acc.
  - intros ->. done.
Qed.

Lemma resolve_unresolved_first (repos : list Repo) (r : Requirement) (rs : list Requirement) :
  (forall repo m, repo ∈ repos -> m ∈ list_modules repo -> matches r m = false) ->
  resolve_in repos (r :: rs) = Failed (Unresolved r).
Proof.
  intros Hnone. unfold Resolver.resolve. simpl.
  rewrite search_None; [done|]. intros repo Hrepo. apply find_nil. eauto.
Qed.

Lemma resolve_unresolved (repos : list Repo) (r : Requirement) (rs : list Requirement) :
  r ∈ rs ->
  (forall repo m, repo ∈ repos -> m ∈ list_modules repo -> matches r m = false) ->
  exists e, resolve_in repos rs = Failed e.
Proof.
  intros Hr Hnone. destruct (resolve_in repos rs) as [out|e|] eqn:Heq.
  - exfalso. apply resolve_ok in Heq as [Hwf Hrs].
    destruct (Hrs r Hr) as (d & Hd & Hprov%provides_matches).
    apply (wf_from _ _ _ Hwf) in Hd.
    apply list_elem_of_join in Hd as (l & Hd & (repo & -> & Hrepo)%list_elem_of_fmap).
    by rewrite (Hnone repo d Hrepo Hd) in Hprov.
  - by exists e.
  - by apply resolve_terminates in Heq.
Qed.

Lemma no_mutual_requirement (repos : list Repo) (out : list ModuleSpec) (a b : string)
    (da : ModuleSpec) :
  well_formed list_modules repos out ->
  (forall m, m ∈ all_modules list_modules repos -> spec_name m = a ->
     exists D, D ∈ spec_requires m /\ req_name D = b) ->
  (forall m, m ∈ all_modules list_modules repos -> spec_name m = b ->
     exists D, D ∈ spec_requires m /\ req_name D = a) ->
  da ∈ out -> spec_name da = a -> False.
Proof.
  intros [Hnd Hfrom Hord] Ha Hb Hda Hname.
  pose proof Hda as Hda'. apply list_elem_of_lookup in Hda' as [i Hi].
  destruct (Ha da (Hfrom _ Hda) Hname) as (D & HD & HDb).
  destruct (Hord i da Hi D HD) as (j & db & Hji & Hj & [Hdb _]).
  assert (db ∈ out) as Hdbin by (apply list_elem_of_lookup; eauto).
  destruct (Hb db (Hfrom _ Hdbin)) as (D' & HD' & HDa); [congruence|].
  destruct (Hord j db Hj D' HD') as (k & da' & Hkj & Hk & [Hda'n _]).
  assert (k = i); [|lia].
  apply (NoDup_lookup (names out) k i a); [done|..]; unfold names;
    rewrite list_lookup_fmap.
  - rewrite Hk. simpl. congruence.
  - rewrite Hi. simpl. congruence.
Qed.

End ResolverClaims.

(** C1: with the repositories in registration order, an unconstrained
    requirement resolves to the highest version held by the first
    repository that has a module of that name, a requirement [name==V] to
    version [V] from the first repository that has it, and resolving fails
    when no repository holds a satisfying module. *)
Theorem resolve_first_repository_best_match :
  forall (list_modules : Repo -> list ModuleSpec) (repos : list Repo)
         (l1 : list Repo) (repo : Repo) (l2 : list Repo) (r : Requirement),
    let resolve := Resolver.resolve list_modules in
    let returned m :=
      (forall out, resolve repos [r] = Resolver.Resolved out ->
                   exists deps, out = deps ++ [m])
      /\ (spec_requires m = [] -> resolve repos [r] = Resolver.Resolved [m]) in
    (repos = l1 ++ repo :: l2 ->
     req_constraint r = Unconstrained ->
     (forall repo' m, repo' ∈ l1 -> m ∈ list_modules repo' ->
        spec_name m <> req_name r) ->
     (exists m, m ∈ list_modules repo /\ spec_name m = req_name r) ->
     exists m, m ∈ list_modules repo /\ spec_name m = req_name r
       /\ (forall m', m' ∈ list_modules repo -> spec_name m' = req_name r ->
             Version_leb (spec_version m') (spec_version m) = true)
       /\ returned m)
    /\ (forall V, repos = l1 ++ repo :: l2 ->
        req_constraint r = Exact V ->
        (forall repo' m, repo' ∈ l1 -> m ∈ list_modules repo' ->
           spec_name m = req_name r -> spec_version m <> V) ->
        (exists m, m ∈ list_modules repo /\ spec_name m = req_name r
                   /\ spec_version m = V) ->
        exists m, m ∈ list_modules repo /\ spec_name m = req_name r
          /\ spec_version m = V /\ returned m)
    /\ ((forall repo' m, repo' ∈ repos -> m ∈ list_modules repo' ->
           Resolver.matches r m = false) ->
        (forall rs, resolve repos (r :: rs) = Resolver.Failed (Resolver.Unresolved r))
        /\ (forall rs, r ∈ rs -> exists e, resolve repos rs = Resolver.Failed e)).
Proof.
  intros list_modules repos l1 repo l2 r resolve returned. subst resolve returned.
  split; [|split].
  - intros -> Hc Hl1 (m0 & Hm0 & Hn0).
    destruct (Resolver.find list_modules repo r) as [|m rest] eqn:Hfind.
    { exfalso. rewrite find_nil in Hfind. specialize (Hfind m0 Hm0).
      unfold Resolver.matches in Hfind. rewrite Hc, Hn0, String.eqb_refl in Hfind. done. }
    pose proof Hfind as (Hm & Hmatch & Hmax)%find_head_max.
    apply provides_matches in Hmatch as Hprov. destruct Hprov as [Hname _].
    exists m. do 2 (split; [done|]). split.
    + intros m' Hm' Hn'. apply Hmax; [done|]. unfold Resolver.matches.
      by rewrite Hc, Hn', String.eqb_refl.
    + apply resolve_single. eapply search_first; [|done].
      intros repo' Hrepo'. apply find_nil. intros m' Hm'. unfold Resolver.matches.
      apply andb_false_iff. left. apply String.eqb_neq. by eapply Hl1.
  - intros V -> Hc Hl1 (m0 & Hm0 & Hn0 & Hv0).
    destruct (Resolver.find list_modules repo r) as [|m rest] eqn:Hfind.
    { exfalso. rewrite find_nil in Hfind. specialize (Hfind m0 Hm0).
      unfold Resolver.matches in Hfind. rewrite Hc, Hn0, String.eqb_refl in Hfind.
      simpl in Hfind. unfold Version_eqb in Hfind.
      by rewrite Hv0, Version_compare_refl in Hfind. }
    pose proof Hfind as (Hm & Hmatch & Hmax)%find_head_max.
    apply provides_matches in Hmatch as Hprov. destruct Hprov as [Hname Hsat].
    rewrite Hc in Hsat. simpl in Hsat. apply Version_eqb_eq in Hsat.
    exists m. do 3 (split; [done|]).
    apply resolve_single. eapply search_first; [|done].
    intros repo' Hrepo'. apply find_nil. intros m' Hm'. unfold Resolver.matches.
    destruct (String.eqb_spec (spec_name m') (req_name r)) as [Hn|Hn]; [|done].
    rewrite Hc. simpl. destruct (Version_eqb (spec_version m') V) eqn:E; [|done].
    apply Version_eqb_eq in E. by destruct (Hl1 repo' m' Hrepo' Hm' Hn).
  - intros Hnone. split; intros rs.
    + by apply resolve_unresolved_first.
    + intros Hr. by eapply resolve_unresolved.
Qed.

(** Case analysis on membership in a list written out in full. *)
Ltac elem_cases :=
  repeat match goal with
  | H : _ ∈ [] |- _ => by apply elem_of_nil in H
  | H : _ ∈ _ :: _ |- _ => apply elem_of_cons in H as [->|H]
  end.

Lemma resolve_first_repository_best_match_witness :
  (exists m, m ∈ example_storage home_repo /\ spec_name m = "tools"
     /\ (forall m', m' ∈ example_storage home_repo -> spec_name m' = "tools" ->
           Version_leb (spec_version m') (spec_version m) = true)
     /\ (forall out,
           Resolver.resolve example_storage [user_repo; home_repo] [req "tools"]
           = Resolver.Resolved out -> exists deps, out = deps ++ [m]))
  /\ (exists m, m ∈ example_storage user_repo /\ spec_name m = "moduleA"
        /\ spec_version m = [3; 0; 0]
        /\ Resolver.resolve example_storage [home_repo; user_repo]
             [req_eq "moduleA" [3; 0; 0] "moduleA==3.0.0"] = Resolver.Resolved [m])
  /\ Resolver.resolve example_storage [home_repo; user_repo] [req "missing"; req "app"]
     = Resolver.Failed (Resolver.Unresolved (req "missing")).
Proof.
  split; [|split].
  - destruct (resolve_first_repository_best_match example_storage
                [user_repo; home_repo] [user_repo] home_repo [] (req "tools"))
      as [H _].
    destruct H as (m & Hm & Hn & Hmax & Hret & _).
    + reflexivity.
    + reflexivity.
    + intros repo' m Hrepo Hm. apply list_elem_of_singleton in Hrepo. subst repo'.
      change (example_storage user_repo) with [moduleA_3_user; cycA; cycB] in Hm.
      elem_cases; intros Heq; vm_compute in Heq; discriminate Heq.
    + exists tools_1. split; [|reflexivity].
      change (example_storage home_repo) with [moduleA_1; moduleA_2; app_1; tools_1].
      do 3 right. left.
    + exists m. do 3 (split; [assumption|]). exact Hret.
  - destruct (resolve_first_repository_best_match example_storage
                [home_repo; user_repo] [home_repo] user_repo []
                (req_eq "moduleA" [3; 0; 0] "moduleA==3.0.0"))
      as (_ & H & _).
    destruct (H [3; 0; 0]) as (m & Hm & Hn & Hv & _ & Hret).
    + reflexivity.
    + reflexivity.
    + intros repo' m Hrepo Hm. apply list_elem_of_singleton in Hrepo. subst repo'.
      change (example_storage home_repo) with [moduleA_1; moduleA_2; app_1; tools_1] in Hm.
      elem_cases; intros Hname Heq; vm_compute in Hname, Heq;
        first [discriminate Heq | discriminate Hname].
    + exists moduleA_3_user. split; [|split; reflexivity].
      change (example_storage user_repo) with [moduleA_3_user; cycA; cycB]. left.
    + exists m. do 3 (split; [assumption|]). apply Hret.
      change (example_storage user_repo) with [moduleA_3_user; cycA; cycB] in Hm.
      elem_cases; try reflexivity; vm_compute in Hn; discriminate Hn.
  - destruct (resolve_first_repository_best_match example_storage
                [home_repo; user_repo] [] home_repo [user_repo] (req "missing"))
      as (_ & _ & H).
    destruct H as [H _].
    + intros repo' m Hrepo Hm. elem_cases.
      * change (example_storage home_repo)
          with [moduleA_1; moduleA_2; app_1; tools_1] in Hm.
        elem_cases; reflexivity.
      * change (example_storage user_repo) with [moduleA_3_user; cycA; cycB] in Hm.
        elem_cases; reflexivity.
    + apply H.
Defined.

(** C2: the list returned by the resolver is dependency-ordered: every
    returned module comes strictly after a returned module that provides
    each of the requirements in its [requires]; no name is returned twice
    and every requested requirement is provided.  When the modules called
    [a] all require [b] and the modules called [b] all require [a], a
    request that names [a] fails with a resolve error. *)
Theorem resolve_dependency_ordered_or_cycle_error :
  forall (list_modules : Repo -> list ModuleSpec) (repos : list Repo)
         (rs : list Requirement),
    let resolve := Resolver.resolve list_modules in
    (forall out, resolve repos rs = Resolver.Resolved out ->
       Resolver.dependency_ordered out
       /\ NoDup (Resolver.names out)
       /\ (forall r, r ∈ rs -> exists d, d ∈ out /\ Resolver.provides r d))
    /\ (forall a b,
          (forall m, m ∈ Resolver.all_modules list_modules repos -> spec_name m = a ->
             exists D, D ∈ spec_requires m /\ req_name D = b) ->
          (forall m, m ∈ Resolver.all_modules list_modules repos -> spec_name m = b ->
             exists D, D ∈ spec_requires m /\ req_name D = a) ->
          (exists r, r ∈ rs /\ req_name r = a) ->
          exists e, resolve repos rs = Resolver.Failed e).
Proof.
  intros list_modules repos rs resolve. subst resolve. split.
  - intros out Heq. apply resolve_ok in Heq as [[Hnd Hfrom Hord] Hrs]. done.
  - intros a b Ha Hb (r & Hr & Hname).
    destruct (Resolver.resolve list_modules repos rs) as [out|e|] eqn:Heq.
    + exfalso. apply resolve_ok in Heq as [Hwf Hrs].
      destruct (Hrs r Hr) as (d & Hd & [Hdn _]).
      eapply (no_mutual_requirement list_modules repos out a b d); eauto.
      congruence.
    + by exists e.
    + by apply resolve_terminates in Heq.
Qed.

Lemma resolve_dependency_ordered_or_cycle_error_witness :
  (Resolver.dependency_ordered [moduleA_2; tools_1; app_1]
   /\ NoDup (Resolver.names [moduleA_2; tools_1; app_1]))
  /\ exists e, Resolver.resolve example_storage [home_repo; user_repo] [req "A"]
               = Resolver.Failed e.
Proof.
  destruct (resolve_dependency_ordered_or_cycle_error example_storage
              [home_repo; user_repo] [req "app"]) as [Hord _].
  destruct (resolve_dependency_ordered_or_cycle_error example_storage
              [home_repo; user_repo] [req "A"]) as [_ Hcyc].
  split.
  - destruct (Hord [moduleA_2; tools_1; app_1]) as (H1 & H2 & _);
      [vm_compute; reflexivity|]. split; assumption.
  - apply (Hcyc "A" "B").
    + intros m Hm Hn.
      change (Resolver.all_modules example_storage [home_repo; user_repo])
        with [moduleA_1; moduleA_2; app_1; tools_1; moduleA_3_user; cycA; cycB] in Hm.
      elem_cases; vm_compute in Hn; try discriminate Hn.
      exists (req "B"). split; [left|reflexivity].
    + intros m Hm Hn.
      change (Resolver.all_modules example_storage [home_repo; user_repo])
        with [moduleA_1; moduleA_2; app_1; tools_1; moduleA_3_user; cycA; cycB] in Hm.
      elem_cases; vm_compute in Hn; try discriminate Hn.
      exists (req "A"). split; [left|reflexivity].
    + exists (req "A"). split; [left|reflexivity].
Defined.

(** ** Facts about ordered dictionaries *)

Section OrderedDictFacts.

Context {V : Type}.
Implicit Types (d : OrderedDict.t V) (k : string) (v : V).

Lemma od_contains_keys k d :
  OrderedDict.contains k d = true <-> k ∈ OrderedDict.keys d.
Proof.
  unfold OrderedDict.contains, OrderedDict.keys. rewrite existsb_exists. split.
  - intros ([k' v'] & Hin & Heq%String.eqb_eq). simpl in Heq. subst k'.
    apply list_elem_of_fmap. exists (k, v'). split; [done|]. by apply list_elem_of_In.
  - intros ([k' v'] & -> & Hin)%list_elem_of_fmap. exists (k', v'). split.
    + by apply list_elem_of_In.
    + apply String.eqb_refl.
Qed.

Lemma od_contains_false k d :
  OrderedDict.contains k d = false <-> k ∉ OrderedDict.keys d.
Proof.
  rewrite <- od_contains_keys. by destruct (OrderedDict.contains k d).
Qed.

Lemma od_setitem_fresh k v d :
  k ∉ OrderedDict.keys d -> OrderedDict.setitem k v d = d ++ [(k, v)].
Proof.
  induction d as [|[k' v'] d IH]; simpl; [done|]. intros Hk.
  apply not_elem_of_cons in Hk as [Hne Hk].
  destruct (String.eqb_spec k k') as [->|_]; [done|]. by rewrite IH.
Qed.

Lemma od_of_items_go (acc items : list (string * V)) :
  NoDup (OrderedDict.keys (acc ++ items)) ->
  foldl (fun d kv => OrderedDict.setitem kv.1 kv.2 d) acc items = acc ++ items.
Proof.
  revert acc. induction items as [|[k v] items IH]; intros acc Hnd; simpl.
  - by rewrite app_nil_r.
  - rewrite od_setitem_fresh.
    + rewrite IH; rewrite <- (assoc_L (++)); done.
    + unfold OrderedDict.keys in Hnd. rewrite fmap_app in Hnd.
      apply NoDup_app in Hnd as (_ & Hdisj & _). intros Hin.
      apply (Hdisj k Hin). simpl. left.
Qed.

(** Rebuilding a dictionary from items with distinct keys changes nothing. *)
Lemma od_of_items_id (items : list (string * V)) :
  NoDup (OrderedDict.keys items) -> OrderedDict.of_items items = items.
Proof. intros Hnd. unfold OrderedDict.of_items. by rewrite od_of_items_go. Qed.

Lemma od_pop_filter k d :
  NoDup (OrderedDict.keys d) ->
  OrderedDict.pop k d = List.filter (fun kv => negb (String.eqb k kv.1)) d.
Proof.
  induction d as [|[k' v'] d IH]; simpl; [done|]. intros Hnd.
  apply NoDup_cons in Hnd as [Hk' Hnd].
  destruct (String.eqb_spec k k') as [->|Hne]; simpl.
  - clear IH. induction d as [|[k v] d IH]; simpl; [done|].
    apply not_elem_of_cons in Hk' as [Hne Hk'].
    apply NoDup_cons in Hnd as [_ Hnd].
    destruct (String.eqb_spec k' k) as [->|_]; [done|]. simpl. f_equal. by apply IH.
  - f_equal. by apply IH.
Qed.

Lemma od_pop_sublist k d : OrderedDict.pop k d `sublist_of` d.
Proof.
  induction d as [|[k' v'] d IH]; simpl; [done|].
  destruct (String.eqb k k'); [by apply sublist_cons|by apply sublist_skip].
Qed.

Lemma list_insert_perm {A} (i : Z) (x : A) (l : list A) :
  Py.list_insert i x l ≡ₚ x :: l.
Proof.
  unfold Py.list_insert. rewrite <- Permutation_middle. by rewrite take_drop.
Qed.

End OrderedDictFacts.

(** ** Facts about the repository registry *)

Lemma table_ok_nil : table_ok [].
Proof. split; [constructor|]. intros k r Hin. by apply elem_of_nil in Hin. Qed.

Lemma table_ok_values_names (d : OrderedDict.t Repo) :
  table_ok d -> repo_name <$> OrderedDict.values d = OrderedDict.keys d.
Proof.
  intros [_ Hkey]. unfold OrderedDict.values, OrderedDict.keys.
  induction d as [|[k r] d IH]; simpl; [done|]. f_equal.
  - symmetry. apply Hkey. left.
  - apply IH. intros k' r' Hin. apply Hkey. by right.
Qed.

Lemma table_ok_perm (d d' : OrderedDict.t Repo) :
  d' ≡ₚ d -> table_ok d -> table_ok d'.
Proof.
  intros Hperm [Hnd Hkey]. split.
  - unfold OrderedDict.keys. by rewrite Hperm.
  - intros k r Hin. apply Hkey. by rewrite <- Hperm.
Qed.

Lemma table_ok_sublist (d d' : OrderedDict.t Repo) :
  d' `sublist_of` d -> table_ok d -> table_ok d'.
Proof.
  intros Hsub [Hnd Hkey]. split.
  - apply (sublist_NoDup _ _ Hnd). unfold OrderedDict.keys. by apply fmap_sublist.
  - intros k r Hin. apply Hkey. by eapply elem_of_sublist.
Qed.

Lemma table_ok_cons_fresh (d : OrderedDict.t Repo) (repo : Repo) :
  table_ok d -> repo_name repo ∉ OrderedDict.keys d ->
  table_ok ((repo_name repo, repo) :: d).
Proof.
  intros [Hnd Hkey] Hfresh. split.
  - simpl. by apply NoDup_cons.
  - intros k r [[= -> ->]|Hin]%elem_of_cons; [done|]. by apply Hkey.
Qed.

Lemma repos_table_Some (e : PyExc) (reg : Registry) (d : OrderedDict.t Repo) :
  reg !! "repos" = Some (RepoTable d) -> repos_table e reg = Returns d.
Proof. intros H. unfold repos_table. by rewrite H. Qed.

Lemma get_repos_Some (reg : Registry) (d : OrderedDict.t Repo) :
  reg !! "repos" = Some (RepoTable d) -> get_repos reg = Returns (OrderedDict.values d).
Proof. intros H. unfold get_repos. by rewrite (repos_table_Some _ _ _ H). Qed.

(** What [add_repo] does to a registry whose table is in good order. *)
Lemma add_repo_table (repo : Repo) (idx : option Z) (reg : Registry)
    (d : OrderedDict.t Repo) :
  reg !! "repos" = Some (RepoTable d) -> table_ok d ->
  ((repo_name repo ∈ OrderedDict.keys d) /\ add_repo repo idx reg = Returns reg)
  \/ ((repo_name repo ∉ OrderedDict.keys d)
      /\ add_repo repo idx reg
         = Returns (<["repos" := RepoTable
              (match idx with
               | Some i => Py.list_insert i (repo_name repo, repo) d
               | None => d ++ [(repo_name repo, repo)]
               end)]> reg)).
Proof.
  intros Hreg Hok. unfold add_repo. rewrite (repos_table_Some _ _ _ Hreg). simpl.
  destruct (OrderedDict.contains (repo_name repo) d) eqn:E.
  - left. by apply od_contains_keys in E.
  - right. apply od_contains_false in E. split; [done|].
    destruct idx as [i|]; simpl.
    + rewrite od_of_items_id; [done|].
      eapply proj1, (table_ok_perm ((repo_name repo, repo) :: d) _);
        [apply list_insert_perm|by apply table_ok_cons_fresh].
    + by rewrite od_setitem_fresh.
Qed.

Lemma add_repo_ok (repo : Repo) (idx : option Z) (reg : Registry) :
  registry_ok reg -> exists reg', add_repo repo idx reg = Returns reg' /\ registry_ok reg'.
Proof.
  intros (d & Hreg & Hok).
  destruct (add_repo_table repo idx reg d Hreg Hok) as [[_ ->]|[Hfresh ->]].
  - exists reg. split; [done|]. by exists d.
  - eexists. split; [done|]. eexists. split; [apply lookup_insert_eq|].
    apply (table_ok_perm ((repo_name repo, repo) :: d) _).
    + destruct idx; [apply list_insert_perm|].
      by rewrite Permutation_app_comm.
    + by apply table_ok_cons_fresh.
Qed.

Lemma remove_repo_ok (repo : Repo) (reg : Registry) :
  registry_ok reg -> exists reg', remove_repo repo reg = Returns reg' /\ registry_ok reg'.
Proof.
  intros (d & Hreg & Hok). unfold remove_repo.
  rewrite (repos_table_Some _ _ _ Hreg). simpl. eexists. split; [done|].
  eexists. split; [apply lookup_insert_eq|].
  eapply table_ok_sublist; [apply od_pop_sublist|done].
Qed.

Lemma update_repo_ok (repo : Repo) (reg : Registry) :
  repo_name repo <> "repos" -> registry_ok reg -> registry_ok (update_repo repo reg).
Proof.
  intros Hne (d & Hreg & Hok). exists d. split; [|done].
  unfold update_repo. by rewrite lookup_insert_ne.
Qed.

Lemma run_registry_ops_ok (ops : list RegistryOp) (reg : Registry) :
  (forall repo, UpdateRepo repo ∈ ops -> repo_name repo <> "repos") ->
  registry_ok reg ->
  exists reg', run_registry_ops ops reg = Returns reg' /\ registry_ok reg'.
Proof.
  revert reg. induction ops as [|op ops IH]; intros reg Hupd Hok; simpl.
  - by exists reg.
  - assert (exists reg1, run_registry_op reg op = Returns reg1 /\ registry_ok reg1)
      as (reg1 & -> & Hok1).
    { destruct op as [repo idx|repo|repo]; simpl.
      - by apply add_repo_ok.
      - by apply remove_repo_ok.
      - eexists. split; [done|]. apply update_repo_ok; [|done]. apply Hupd. left. }
    simpl. apply IH; [|done]. intros repo Hin. apply Hupd. by right.
Qed.

Lemma find_first {A} (f : A -> bool) (l1 : list A) (x : A) (l2 : list A) :
  (forall y, y ∈ l1 -> f y = false) -> f x = true ->
  List.find f (l1 ++ x :: l2) = Some x.
Proof.
  intros Hl1 Hx. induction l1 as [|y l1 IH]; simpl; [by rewrite Hx|].
  rewrite (Hl1 y) by left. apply IH. intros z Hz. apply Hl1. by right.
Qed.

Lemma find_none {A} (f : A -> bool) (l : list A) :
  (forall y, y ∈ l -> f y = false) -> List.find f l = None.
Proof.
  intros Hl. induction l as [|y l IH]; simpl; [done|].
  rewrite (Hl y) by left. apply IH. intros z Hz. apply Hl. by right.
Qed.

Lemma find_exists {A} (f : A -> bool) (l : list A) (x : A) :
  x ∈ l -> f x = true -> exists y, List.find f l = Some y /\ f y = true.
Proof.
  intros Hin Hx. induction Hin as [x l|x z l Hin IH]; simpl.
  - rewrite Hx. by exists x.
  - destruct (f z) eqn:E; [by exists z|]. by apply IH.
Qed.

Section GetRepoFacts.

Variable Repo_getattr : Repo -> string -> option PyAtom.
Hypothesis Repo_getattr_name :
  forall repo, Repo_getattr repo "name" = Some (AStr (repo_name repo)).

Lemma repo_matches_name (a : PyAtom) (r : Repo) :
  repo_matches Repo_getattr [("name", a)] r = PyAtom_eqb (AStr (repo_name r)) a.
Proof.
  unfold repo_matches. simpl. rewrite Repo_getattr_name. simpl. apply andb_true_r.
Qed.

Lemma get_repo_by_name (reg : Registry) (d : OrderedDict.t Repo) (n : string) :
  reg !! "repos" = Some (RepoTable d) ->
  get_repo Repo_getattr (ArgAtom (AStr n)) [] reg
  = Returns (List.find (fun r => String.eqb (repo_name r) n) (OrderedDict.values d)).
Proof.
  intros Hreg. unfold get_repo. rewrite (get_repos_Some _ _ Hreg). simpl.
  f_equal. induction (OrderedDict.values d) as [|r l IH]; simpl; [done|].
  rewrite repo_matches_name. simpl. by rewrite IH.
Qed.

End GetRepoFacts.

(** ** The repository registry: what the code guarantees *)

(** X1: [get_repo(name)] returns the first registered repository, in
    registration order, whose name is [name], and [None] when there is
    none or when [name] is not a string; a [Repo] instance is handed back
    as it is, registered or not. *)
Theorem get_repo_first_registered_match :
  forall (Repo_getattr : Repo -> string -> option PyAtom) (reg : Registry)
         (d : OrderedDict.t Repo) (n : string),
    (forall repo, Repo_getattr repo "name" = Some (AStr (repo_name repo))) ->
    reg !! "repos" = Some (RepoTable d) ->
    (forall l1 r l2,
        OrderedDict.values d = l1 ++ r :: l2 -> repo_name r = n ->
        (forall r', r' ∈ l1 -> repo_name r' <> n) ->
        get_repo Repo_getattr (ArgAtom (AStr n)) [] reg = Returns (Some r))
    /\ ((forall r, r ∈ OrderedDict.values d -> repo_name r <> n) ->
        get_repo Repo_getattr (ArgAtom (AStr n)) [] reg = Returns None)
    /\ (forall a, (forall s, a <> AStr s) ->
        get_repo Repo_getattr (ArgAtom a) [] reg = Returns None)
    /\ (forall r query, get_repo Repo_getattr (ArgRepo r) query reg = Returns (Some r)).
Proof.
  intros g reg d n Hname Hreg. split; [|split; [|split]].
  - intros l1 r l2 Hd Hr Hl1. rewrite (get_repo_by_name g Hname reg d n Hreg).
    f_equal. rewrite Hd. apply find_first.
    + intros y Hy. apply String.eqb_neq. by apply Hl1.
    + by apply String.eqb_eq.
  - intros Hnone. rewrite (get_repo_by_name g Hname reg d n Hreg).
    f_equal. apply find_none. intros y Hy. apply String.eqb_neq. by apply Hnone.
  - intros a Ha. unfold get_repo. rewrite (get_repos_Some _ _ Hreg). simpl.
    f_equal. apply find_none. intros y _. rewrite repo_matches_name; [|done].
    destruct a as [| | |s]; try done. by destruct (Ha s).
  - done.
Qed.

Lemma get_repo_first_registered_match_witness :
  get_repo example_getattr (ArgAtom (AStr "user")) [] example_registry
  = Returns (Some user_repo).
Proof.
  destruct (get_repo_first_registered_match example_getattr example_registry
              [("home", home_repo); ("user", user_repo)] "user") as [H _].
  - intros repo. reflexivity.
  - reflexivity.
  - apply (H [home_repo] user_repo []).
    + reflexivity.
    + reflexivity.
    + intros r' Hr'. elem_cases. intros Heq. vm_compute in Heq. discriminate Heq.
Defined.

(** Membership in a list written out in full, none of whose elements
    is the one looked for. *)
Ltac elem_discriminate H :=
  repeat (apply elem_of_cons in H as [H|H]; [discriminate H|]);
  by apply elem_of_nil in H.

(** The same for a list of registry calls, looking for an [UpdateRepo]. *)
Ltac elem_discriminate_update H :=
  repeat (apply elem_of_cons in H as [H|H];
          [first [discriminate H | injection H as ->; discriminate]|]);
  by apply elem_of_nil in H.

(** The same for a list of repositories, none of which has the name
    looked for. *)
Ltac elem_discriminate_name H :=
  repeat (apply elem_of_cons in H as [H|H]; [subst; discriminate|]);
  by apply elem_of_nil in H.

Ltac nodup_discriminate :=
  repeat constructor;
  let H := fresh "Hin" in intros H; elem_discriminate H.

Lemma example_table_ok : table_ok [("home", home_repo); ("user", user_repo)].
Proof.
  split.
  - vm_compute. nodup_discriminate.
  - intros k r Hin.
    repeat (apply elem_of_cons in Hin as [[= -> ->]|Hin]; [reflexivity|]).
    by apply elem_of_nil in Hin.
Defined.

Lemma values_list_insert (i : Z) (repo : Repo) (d : OrderedDict.t Repo) :
  OrderedDict.values (Py.list_insert i (repo_name repo, repo) d)
  = Py.list_insert i repo (OrderedDict.values d).
Proof.
  unfold OrderedDict.values, Py.list_insert.
  by rewrite fmap_app, fmap_cons, fmap_take, fmap_drop, length_fmap.
Qed.

Lemma table_name_fresh (d : OrderedDict.t Repo) (n : string) :
  table_ok d ->
  (n ∉ OrderedDict.keys d <-> forall r, r ∈ OrderedDict.values d -> repo_name r <> n).
Proof.
  intros Hok. rewrite <- (table_ok_values_names d Hok). split.
  - intros Hn r Hr Heq. apply Hn. apply list_elem_of_fmap. by exists r.
  - intros Hn (r & -> & Hr)%list_elem_of_fmap. by apply (Hn r).
Qed.

(** X2: [add_repo(repo, idx)] on a registry in good order: a name that is
    already registered leaves the registry as it is (the registered
    repository is not replaced); a new name is appended when [idx] is
    [None] and otherwise inserted at position [idx], counted from the end
    when negative and clamped to the ends of the list. *)
Theorem add_repo_keeps_registered_or_inserts :
  forall (repo : Repo) (idx : option Z) (reg : Registry) (d : OrderedDict.t Repo),
    reg !! "repos" = Some (RepoTable d) -> table_ok d ->
    let repos := OrderedDict.values d in
    let n := Z.of_nat (length repos) in
    exists reg',
      add_repo repo idx reg = Returns reg'
      /\ registry_ok reg'
      /\ ((exists r, r ∈ repos /\ repo_name r = repo_name repo) -> reg' = reg)
      /\ ((forall r, r ∈ repos -> repo_name r <> repo_name repo) ->
          exists k : nat,
            get_repos reg' = Returns (take k repos ++ repo :: drop k repos)
            /\ (k <= length repos)%nat
            /\ match idx with
               | None => k = length repos
               | Some i =>
                   ((0 <= i <= n)%Z -> Z.of_nat k = i)
                   /\ ((n < i)%Z -> k = length repos)
                   /\ ((- n <= i < 0)%Z -> Z.of_nat k = (n + i)%Z)
                   /\ ((i < - n)%Z -> k = 0%nat)
               end).
Proof.
  intros repo idx reg d Hreg Hok repos n.
  destruct (add_repo_ok repo idx reg) as (reg' & Hadd & Hok'); [by exists d|].
  exists reg'. split; [done|]. split; [done|].
  destruct (add_repo_table repo idx reg d Hreg Hok) as [[Hin Heq]|[Hfresh Heq]];
    rewrite Heq in Hadd; injection Hadd as <-.
  - split; [done|]. intros Hnone. exfalso.
    by apply (proj2 (table_name_fresh d (repo_name repo) Hok) Hnone).
  - split.
    { intros (r & Hr & Hname). exfalso.
      by apply (proj1 (table_name_fresh d (repo_name repo) Hok) Hfresh r). }
    intros _. erewrite get_repos_Some by apply lookup_insert_eq.
    destruct idx as [i|].
    + rewrite values_list_insert. unfold Py.list_insert. fold repos. fold n.
      eexists. split; [done|]. subst n. split; [|split_and!; intros Hi].
      * destruct (i <? 0)%Z eqn:E; lia.
      * destruct (i <? 0)%Z eqn:E; lia.
      * destruct (i <? 0)%Z eqn:E; lia.
      * destruct (i <? 0)%Z eqn:E; lia.
      * destruct (i <? 0)%Z eqn:E; lia.
    + exists (length repos). split; [|done].
      rewrite firstn_all, drop_all. unfold OrderedDict.values.
      by rewrite fmap_app.
Qed.

Lemma add_repo_keeps_registered_or_inserts_witness :
  exists reg',
    add_repo (LocalRepo "cwd" "/work") (Some (-1)%Z) example_registry = Returns reg'
    /\ get_repos reg' = Returns [home_repo; LocalRepo "cwd" "/work"; user_repo].
Proof.
  destruct (add_repo_keeps_registered_or_inserts (LocalRepo "cwd" "/work")
              (Some (-1)%Z) example_registry [("home", home_repo); ("user", user_repo)])
    as (reg' & Hadd & _ & _ & Hins).
  - reflexivity.
  - exact example_table_ok.
  - exists reg'. split; [exact Hadd|].
    destruct Hins as (k & Hget & _ & _ & _ & Hk & _).
    + intros r Hr. simpl in Hr. elem_cases; intros Heq; vm_compute in Heq;
        discriminate Heq.
    + simpl in Hk. assert (k = 1%nat) as -> by lia. exact Hget.
Defined.

(** X3: After [add_repo(repo)], [get_repo(repo.name)] finds a repository of
    that name: the one registered before under the name if there was one,
    and otherwise [repo] itself. *)
Theorem get_repo_after_add_repo :
  forall (Repo_getattr : Repo -> string -> option PyAtom) (repo : Repo)
         (idx : option Z) (reg : Registry) (d : OrderedDict.t Repo),
    (forall repo, Repo_getattr repo "name" = Some (AStr (repo_name repo))) ->
    reg !! "repos" = Some (RepoTable d) -> table_ok d ->
    exists reg' r,
      add_repo repo idx reg = Returns reg'
      /\ get_repo Repo_getattr (ArgAtom (AStr (repo_name repo))) [] reg'
         = Returns (Some r)
      /\ repo_name r = repo_name repo
      /\ (r ∈ OrderedDict.values d
          \/ (r = repo /\ forall r0, r0 ∈ OrderedDict.values d ->
                                     repo_name r0 <> repo_name repo)).
Proof.
  intros g repo idx reg d Hname Hreg Hok.
  destruct (add_repo_table repo idx reg d Hreg Hok) as [[Hin Heq]|[Hfresh Heq]].
  - rewrite <- (table_ok_values_names d Hok) in Hin.
    apply list_elem_of_fmap in Hin as (r0 & Hr0 & Hin).
    destruct (find_exists (fun r => String.eqb (repo_name r) (repo_name repo))
                (OrderedDict.values d) r0 Hin) as (r & Hfind & Hr).
    { rewrite Hr0. apply String.eqb_refl. }
    exists reg, r. split; [done|]. rewrite (get_repo_by_name g Hname reg d _ Hreg).
    rewrite Hfind. split; [done|]. apply String.eqb_eq in Hr. split; [done|].
    left. apply list_elem_of_In. by apply find_some in Hfind as [? _].
  - eexists _, repo. split; [exact Heq|].
    pose proof (proj1 (table_name_fresh d _ Hok) Hfresh) as Hnone.
    erewrite (get_repo_by_name g Hname) by apply lookup_insert_eq.
    split; [|split; [done|right; done]]. f_equal.
    destruct idx as [i|].
    + rewrite values_list_insert. unfold Py.list_insert. apply find_first.
      * intros y (j & Hj & _)%elem_of_take. apply String.eqb_neq. apply Hnone.
        apply list_elem_of_lookup. by exists j.
      * apply String.eqb_refl.
    + unfold OrderedDict.values. rewrite fmap_app. simpl. apply find_first.
      * intros y Hy. apply String.eqb_neq. by apply Hnone.
      * apply String.eqb_refl.
Qed.

Lemma get_repo_after_add_repo_witness :
  exists reg' r,
    add_repo (LocalRepo "home" "/elsewhere") None example_registry = Returns reg'
    /\ get_repo example_getattr (ArgAtom (AStr "home")) [] reg' = Returns (Some r)
    /\ r ∈ [home_repo; user_repo].
Proof.
  destruct (get_repo_after_add_repo example_getattr (LocalRepo "home" "/elsewhere")
              None example_registry [("home", home_repo); ("user", user_repo)])
    as (reg' & r & Hadd & Hget & _ & Hr).
  - intros repo. reflexivity.
  - reflexivity.
  - exact example_table_ok.
  - exists reg', r. split; [exact Hadd|]. split; [exact Hget|].
    destruct Hr as [Hr|[_ Hnone]]; [exact Hr|].
    exfalso. apply (Hnone home_repo); [left|reflexivity].
Defined.

Lemma values_pop (d : OrderedDict.t Repo) (n : string) :
  table_ok d ->
  OrderedDict.values (OrderedDict.pop n d)
  = List.filter (fun r => negb (String.eqb n (repo_name r))) (OrderedDict.values d).
Proof.
  intros [Hnd Hkey]. rewrite od_pop_filter by done. clear Hnd.
  unfold OrderedDict.values. induction d as [|[k r] d IH]; [done|].
  assert (k = repo_name r) as -> by (apply Hkey; left).
  assert (forall k' r', (k', r') ∈ d -> k' = repo_name r') as Hkey'
    by (intros k' r' Hin; apply Hkey; by right).
  specialize (IH Hkey').
  rewrite fmap_cons. cbn [List.filter fst snd].
  destruct (negb (String.eqb n (repo_name r))); [rewrite fmap_cons|]; by rewrite IH.
Qed.

(** X4: [remove_repo(repo)] looks at the name of [repo] only: the repository
    registered under that name is dropped, the others keep their order,
    and [get_repo] no longer finds the name. *)
Theorem remove_repo_unregisters_name :
  forall (Repo_getattr : Repo -> string -> option PyAtom) (repo : Repo)
         (reg : Registry) (d : OrderedDict.t Repo),
    (forall repo, Repo_getattr repo "name" = Some (AStr (repo_name repo))) ->
    reg !! "repos" = Some (RepoTable d) -> table_ok d ->
    exists reg',
      remove_repo repo reg = Returns reg'
      /\ registry_ok reg'
      /\ get_repos reg'
         = Returns (List.filter (fun r => negb (String.eqb (repo_name repo) (repo_name r)))
                                (OrderedDict.values d))
      /\ get_repo Repo_getattr (ArgAtom (AStr (repo_name repo))) [] reg' = Returns None.
Proof.
  intros g repo reg d Hname Hreg Hok.
  destruct (remove_repo_ok repo reg) as (reg' & Hrem & Hok'); [by exists d|].
  exists reg'. split; [done|]. split; [done|].
  unfold remove_repo in Hrem. rewrite (repos_table_Some _ _ _ Hreg) in Hrem.
  simpl in Hrem. injection Hrem as <-.
  erewrite get_repos_Some by apply lookup_insert_eq.
  erewrite (get_repo_by_name g Hname) by apply lookup_insert_eq.
  rewrite values_pop by done. split; [done|]. f_equal. apply find_none.
  intros y [_ Hy]%list_elem_of_In%filter_In.
  apply negb_true_iff in Hy. by rewrite String.eqb_sym.
Qed.

Lemma remove_repo_unregisters_name_witness :
  exists reg',
    remove_repo (LocalRepo "home" "/not/the/registered/path") example_registry
    = Returns reg'
    /\ get_repos reg' = Returns [user_repo]
    /\ get_repo example_getattr (ArgAtom (AStr "home")) [] reg' = Returns None.
Proof.
  destruct (remove_repo_unregisters_name example_getattr
              (LocalRepo "home" "/not/the/registered/path") example_registry
              [("home", home_repo); ("user", user_repo)])
    as (reg' & Hrem & _ & Hget & Hnone).
  - intros repo. reflexivity.
  - reflexivity.
  - exact example_table_ok.
  - exists reg'. split; [exact Hrem|]. split; [exact Hget|exact Hnone].
Defined.

(** X5: Starting from the empty registry, no sequence of [add_repo],
    [remove_repo] and [update_repo] calls raises, and the repositories
    listed by [get_repos] always carry pairwise distinct names
    ([update_repo] with a repository called [repos] is left out: it
    overwrites the table itself). *)
Theorem registry_names_stay_distinct :
  forall (ops : list RegistryOp),
    (forall repo, UpdateRepo repo ∈ ops -> repo_name repo <> "repos") ->
    exists reg' repos,
      run_registry_ops ops initial_registry = Returns reg'
      /\ get_repos reg' = Returns repos
      /\ NoDup (repo_name <$> repos).
Proof.
  intros ops Hupd.
  destruct (run_registry_ops_ok ops initial_registry Hupd) as (reg' & Hrun & Hok).
  { exists []. split; [done|apply table_ok_nil]. }
  destruct Hok as (d & Hreg & Hok).
  exists reg', (OrderedDict.values d). split; [done|]. split.
  - by apply get_repos_Some.
  - rewrite (table_ok_values_names d Hok). apply Hok.
Qed.

Lemma registry_names_stay_distinct_witness :
  exists reg' repos,
    run_registry_ops
      [AddRepo home_repo None; AddRepo user_repo (Some 0%Z);
       UpdateRepo (LocalRepo "home" "/new/home/modules");
       AddRepo (LocalRepo "home" "/new/home/modules") None;
       RemoveRepo user_repo]
      initial_registry = Returns reg'
    /\ get_repos reg' = Returns repos
    /\ NoDup (repo_name <$> repos).
Proof.
  apply registry_names_stay_distinct.
  intros repo Hin. elem_discriminate_update Hin.
Defined.

Lemma get_repos_same_table (reg1 reg2 : Registry) :
  reg1 !! "repos" = reg2 !! "repos" -> get_repos reg1 = get_repos reg2.
Proof. intros H. unfold get_repos, repos_table. by rewrite H. Qed.

Lemma get_repo_same_table (g : Repo -> string -> option PyAtom) (name : RepoArg)
    (query : OrderedDict.t PyAtom) (reg1 reg2 : Registry) :
  reg1 !! "repos" = reg2 !! "repos" ->
  get_repo g name query reg1 = get_repo g name query reg2.
Proof.
  intros H. unfold get_repo. destruct name; [done|].
  by rewrite (get_repos_same_table reg1 reg2 H).
Qed.

Lemma run_registry_op_same_table (reg1 reg2 : Registry) (op : RegistryOp) :
  reg1 !! "repos" = reg2 !! "repos" -> is_update op = false ->
  match run_registry_op reg1 op, run_registry_op reg2 op with
  | Returns a, Returns b => a !! "repos" = b !! "repos"
  | Raises e1, Raises e2 => e1 = e2
  | Exits c1, Exits c2 => c1 = c2
  | _, _ => False
  end.
Proof.
  intros H Hop. destruct op as [repo idx|repo|repo]; [| |done]; simpl.
  - unfold add_repo, repos_table. rewrite H.
    destruct (reg2 !! "repos") as [[d|r]|] eqn:E; simpl; try done.
    destruct (OrderedDict.contains (repo_name repo) d); simpl; [congruence|].
    destruct idx; simpl; by rewrite !lookup_insert_eq.
  - unfold remove_repo, repos_table. rewrite H.
    destruct (reg2 !! "repos") as [[d|r]|] eqn:E; simpl; try done.
    by rewrite !lookup_insert_eq.
Qed.

Lemma run_registry_ops_without_updates (ops : list RegistryOp) (reg1 reg2 : Registry) :
  (forall repo, UpdateRepo repo ∈ ops -> repo_name repo <> "repos") ->
  reg1 !! "repos" = reg2 !! "repos" ->
  match run_registry_ops ops reg1,
        run_registry_ops (List.filter (fun op => negb (is_update op)) ops) reg2 with
  | Returns a, Returns b => a !! "repos" = b !! "repos"
  | Raises e1, Raises e2 => e1 = e2
  | Exits c1, Exits c2 => c1 = c2
  | _, _ => False
  end.
Proof.
  revert reg1 reg2. induction ops as [|op ops IH]; intros reg1 reg2 Hupd H; [done|].
  assert (forall repo, UpdateRepo repo ∈ ops -> repo_name repo <> "repos") as Hupd'
    by (intros repo Hin; apply Hupd; by right).
  destruct (is_update op) eqn:Hop.
  - destruct op as [| |repo]; try done. simpl. apply IH; [done|].
    unfold update_repo. rewrite lookup_insert_ne; [done|]. apply Hupd. left.
  - cbn [List.filter]. rewrite Hop. cbn [negb run_registry_ops].
    pose proof (run_registry_op_same_table reg1 reg2 op H Hop) as Hstep.
    destruct (run_registry_op reg1 op) as [a|e1|c1],
             (run_registry_op reg2 op) as [b|e2|c2]; simpl; try done.
    by apply IH.
Qed.



(** X7: [set_home_path(path)] returns the normalized path, stores it in
    [CPENV_HOME], has the home directory and its [modules] and [cache]
    subdirectories created, and files the new [home] repository at the top
    level of [_registry]; the repositories listed by [get_repos], and so
    the one [get_repo('home')] finds, are the same as before the call. *)
Theorem set_home_path_leaves_registered_repos :
  forall (normpath : list string -> string) (site_data_dir : string)
         (p : string) (s : Session),
    let home := (set_home_path normpath site_data_dir p s).1 in
    let s' := (set_home_path normpath site_data_dir p s).2 in
    home = normpath [p]
    /\ os_environ s' !! "CPENV_HOME" = Some home
    /\ get_home_path normpath site_data_dir (os_environ s') = normpath [home]
    /\ ensured_paths s'
       = ensured_paths s ++ [home; normpath [home; "modules"]; normpath [home; "cache"]]
    /\ registry s' !! "home"
       = Some (RepoObject (LocalRepo "home" (normpath [normpath [home]; "modules"])))
    /\ get_repos (registry s') = get_repos (registry s)
    /\ forall g name query,
        get_repo g name query (registry s') = get_repo g name query (registry s).
Proof.
  intros normpath site_data_dir p s. simpl.
  unfold get_home_modules_path, get_home_path. simpl.
  rewrite !lookup_insert_eq. simpl. split_and!; try done.
  - by rewrite <- !(assoc_L (++)).
  - unfold update_repo. simpl. by rewrite lookup_insert_eq.
  - apply get_repos_same_table. unfold update_repo. simpl.
    by rewrite lookup_insert_ne.
  - intros g name query. apply get_repo_same_table. unfold update_repo. simpl.
    by rewrite lookup_insert_ne.
Qed.

(** ** Facts about splitting and joining strings *)

Lemma string_app_cons (a : ascii) (s t : string) :
  String a s +:+ t = String a (s +:+ t).
Proof. reflexivity. Qed.

Lemma string_app_nil_l (t : string) : "" +:+ t = t.
Proof. reflexivity. Qed.

Lemma string_app_nil_r (s : string) : s +:+ "" = s.
Proof.
  induction s as [|a s IH]; [done|]. by rewrite string_app_cons, IH.
Qed.

Lemma string_app_assoc (s1 s2 s3 : string) : (s1 +:+ s2) +:+ s3 = s1 +:+ (s2 +:+ s3).
Proof.
  induction s1 as [|a s1 IH]; [done|]. by rewrite !string_app_cons, IH.
Qed.

Lemma has_char_app (c : ascii) (s1 s2 : string) :
  Py.has_char c (s1 +:+ s2) = Py.has_char c s1 || Py.has_char c s2.
Proof.
  induction s1 as [|a s1 IH]; [done|].
  rewrite string_app_cons. simpl. rewrite IH. by rewrite orb_assoc.
Qed.

Lemma contains_string (x : string) (l : list string) :
  Py.contains String.eqb x l = true <-> x ∈ l.
Proof.
  unfold Py.contains. rewrite existsb_exists. split.
  - intros (y & Hin & ->%String.eqb_eq). by apply list_elem_of_In.
  - intros Hin. exists x. split; [by apply list_elem_of_In|apply String.eqb_refl].
Qed.

Lemma contains_string_false (x : string) (l : list string) :
  Py.contains String.eqb x l = false <-> x ∉ l.
Proof.
  rewrite <- contains_string. by destruct (Py.contains String.eqb x l).
Qed.

Lemma split_go_nonempty (sep : string) (skip : nat) (cur s : string) :
  Py.split_go sep skip cur s <> [].
Proof.
  revert skip cur. induction s as [|a s IH]; intros skip cur; [done|].
  cbn [Py.split_go]. destruct skip; [|apply IH].
  destruct (String.prefix sep (String a s)); [discriminate|apply IH].
Qed.

Section SplitSingle.

(** The separator is a single character, as [os.pathsep] is. *)
Variable c : ascii.

#[local] Abbreviation sep := (String c EmptyString).

Lemma split_go_sep (cur s : string) :
  Py.split_go sep 0 cur (String c s) = cur :: Py.split_go sep 0 "" s.
Proof.
  simpl. destruct (ascii_dec c c) as [_|Hne]; [|done]. by destruct s.
Qed.

Lemma split_go_other (a : ascii) (cur s : string) :
  a <> c -> Py.split_go sep 0 cur (String a s) = Py.split_go sep 0 (cur +:+ String a "") s.
Proof.
  intros Hne. simpl. destruct (ascii_dec c a) as [Heq|_]; [by subst|done].
Qed.

Lemma split_go_cases (a : ascii) (cur s : string) :
  (a = c /\ Py.split_go sep 0 cur (String a s) = cur :: Py.split_go sep 0 "" s)
  \/ (a <> c /\ Ascii.eqb c a = false
      /\ Py.split_go sep 0 cur (String a s) = Py.split_go sep 0 (cur +:+ String a "") s).
Proof.
  destruct (Ascii.eqb_spec c a) as [<-|Hne].
  - left. split; [done|apply split_go_sep].
  - right. split; [by intros ->|]. split; [done|]. apply split_go_other. by intros ->.
Qed.

Lemma join_cons (x : string) (l : list string) :
  l <> [] -> Py.join sep (x :: l) = x +:+ String c (Py.join sep l).
Proof. unfold Py.join. destruct l; [done|]. intros _. reflexivity. Qed.

(** Joining what [split] returns gives the string back. *)
Lemma join_split_go (cur s : string) :
  Py.join sep (Py.split_go sep 0 cur s) = cur +:+ s.
Proof.
  revert cur. induction s as [|a s IH]; intros cur.
  - simpl. by rewrite string_app_nil_r.
  - destruct (split_go_cases a cur s) as [[-> ->]|(_ & _ & ->)].
    + rewrite join_cons by apply split_go_nonempty. by rewrite IH.
    + rewrite IH. by rewrite string_app_assoc.
Qed.

Lemma split_go_free (x cur s : string) :
  Py.has_char c x = false ->
  Py.split_go sep 0 cur (x +:+ s) = Py.split_go sep 0 (cur +:+ x) s.
Proof.
  revert cur. induction x as [|a x IH]; intros cur Hx.
  - by rewrite string_app_nil_r.
  - simpl in Hx. apply orb_false_iff in Hx as [Ha Hx].
    rewrite string_app_cons.
    rewrite split_go_other by (intros ->; by rewrite Ascii.eqb_refl in Ha).
    rewrite IH by done. by rewrite string_app_assoc.
Qed.

Lemma split_go_elems_free (cur s x : string) :
  Py.has_char c cur = false -> x ∈ Py.split_go sep 0 cur s -> Py.has_char c x = false.
Proof.
  revert cur. induction s as [|a s IH]; intros cur Hcur.
  - simpl. by intros ->%list_elem_of_singleton.
  - destruct (split_go_cases a cur s) as [[-> ->]|(_ & Hne & ->)].
    + intros [->|Hin]%elem_of_cons; [done|]. by apply (IH "").
    + apply IH. rewrite has_char_app. simpl. by rewrite Hcur, Hne.
Qed.

(** Splitting a join of separator-free pieces gives the pieces back. *)
Lemma split_go_join (l : list string) :
  Forall (fun x => Py.has_char c x = false) l -> l <> [] ->
  Py.split_go sep 0 "" (Py.join sep l) = l.
Proof.
  induction 1 as [|x l Hx Hl IH]; intros Hne; [done|].
  destruct l as [|y l].
  - unfold Py.join. simpl. rewrite <- (string_app_nil_r x) at 1.
    rewrite split_go_free by done. simpl. done.
  - rewrite join_cons by done. rewrite split_go_free by done.
    rewrite split_go_sep, string_app_nil_l. f_equal. by apply IH.
Qed.

Lemma filter_split_go_join (l : list string) :
  Forall (fun x => Py.has_char c x = false /\ Py.truthy x = true) l ->
  List.filter Py.truthy (Py.split_go sep 0 "" (Py.join sep l)) = l.
Proof.
  intros Hl. destruct l as [|x l]; [done|].
  rewrite split_go_join; [|eapply Forall_impl; [done|by intros ? [? _]]|done].
  induction Hl as [|y l' [_ Hy] _ IH]; simpl; [done|]. by rewrite Hy, IH.
Qed.

End SplitSingle.

(** ** Module lookup paths *)

Lemma bind_Returns {A B} (a : A) (f : A -> Outcome B) : (Returns a ≫= f) = f a.
Proof. reflexivity. Qed.

Lemma split_single (c : ascii) (s : string) :
  Py.split (String c "") s = Returns (Py.split_go (String c "") 0 "" s).
Proof. reflexivity. Qed.

Lemma truthy_nonempty (s : string) : Py.truthy s = true <-> s <> "".
Proof. by destruct s. Qed.

(** The two ways through [add_module_path]. *)
Lemma add_module_path_unfold (c : ascii) (normpath : list string -> string)
    (p : string) (s : Session) (d : OrderedDict.t Repo) :
  registry s !! "repos" = Some (RepoTable d) ->
  let sep := String c "" in
  let new_path := normpath [p] in
  let parts := List.filter Py.truthy
                 (Py.split_go sep 0 "" (default "" (os_environ s !! "CPENV_MODULES"))) in
  (new_path ∈ parts ->
   add_module_path sep normpath p s
   = Returns (parts, mkSession (registry s)
                       (<["CPENV_MODULES" := Py.join sep parts]> (os_environ s))
                       (ensured_paths s)))
  /\ (new_path ∉ parts ->
      exists reg' d',
        add_repo (LocalRepo new_path new_path) None (registry s) = Returns reg'
        /\ reg' !! "repos" = Some (RepoTable d')
        /\ add_module_path sep normpath p s
           = Returns (parts ++ [new_path],
                      mkSession reg'
                        (<["CPENV_MODULES" := Py.join sep (parts ++ [new_path])]>
                           (os_environ s))
                        (ensured_paths s))).
Proof.
  intros Hreg sep new_path parts.
  unfold add_module_path. subst sep. rewrite split_single, bind_Returns.
  fold new_path. fold parts.
  split.
  - intros Hin. apply contains_string in Hin. rewrite Hin. done.
  - intros Hnot. apply contains_string_false in Hnot. rewrite Hnot.
    unfold add_repo. rewrite (repos_table_Some _ _ _ Hreg), bind_Returns.
    destruct (OrderedDict.contains _ d).
    + exists (registry s), d. done.
    + eexists _, _. split; [done|]. split; [apply lookup_insert_eq|]. done.
Qed.

Lemma split_parts_ok (c : ascii) (v : string) :
  Forall (fun x => Py.has_char c x = false /\ Py.truthy x = true)
         (List.filter Py.truthy (Py.split_go (String c "") 0 "" v)).
Proof.
  apply Forall_forall. intros x [Hin Hx]%list_elem_of_In%filter_In.
  split; [|done]. apply (split_go_elems_free c "" v); [done|].
  by apply list_elem_of_In.
Qed.

(** X8: When [CPENV_MODULES] is unset or holds the non-empty, separator-free
    paths [old] joined by [os.pathsep], [add_module_path(path)] returns
    [old] if the normalized path is already listed and [old] with the
    normalized path appended otherwise; it writes the join of the returned
    list to [CPENV_MODULES], and registers the path through [add_repo] as
    a local repository named by the path only when it was not listed. *)
Theorem add_module_path_appends_new_path :
  forall (c : ascii) (normpath : list string -> string) (p : string)
         (s : Session) (d : OrderedDict.t Repo) (old : list string),
    let pathsep := String c "" in
    let new_path := normpath [p] in
    registry s !! "repos" = Some (RepoTable d) ->
    Forall (fun x => Py.has_char c x = false /\ x <> "") old ->
    default "" (os_environ s !! "CPENV_MODULES") = Py.join pathsep old ->
    (new_path ∈ old ->
     add_module_path pathsep normpath p s
     = Returns (old, mkSession (registry s)
                       (<["CPENV_MODULES" := Py.join pathsep old]> (os_environ s))
                       (ensured_paths s)))
    /\ (new_path ∉ old ->
        exists reg',
          add_repo (LocalRepo new_path new_path) None (registry s) = Returns reg'
          /\ add_module_path pathsep normpath p s
             = Returns (old ++ [new_path],
                        mkSession reg'
                          (<["CPENV_MODULES" := Py.join pathsep (old ++ [new_path])]>
                             (os_environ s))
                          (ensured_paths s))).
Proof.
  intros c normpath p s d old pathsep new_path Hreg Hold Henv.
  destruct (add_module_path_unfold c normpath p s d Hreg) as [Hin Hnew].
  rewrite Henv in Hin, Hnew. rewrite filter_split_go_join in Hin, Hnew.
  2, 3: eapply Forall_impl; [exact Hold|];
        intros x [? ?]; split; [done|by apply truthy_nonempty].
  split; [done|]. intros Hnot. destruct (Hnew Hnot) as (reg' & d' & Hadd & _ & Hres).
  by exists reg'.
Qed.

Lemma add_module_path_appends_new_path_witness :
  exists reg',
    add_module_path ":" example_normpath "/c"
      (mkSession initial_registry {["CPENV_MODULES" := "/a:/b"]} [])
    = Returns (["/a"; "/b"; "/c"],
               mkSession reg'
                 (<["CPENV_MODULES" := "/a:/b:/c"]> {["CPENV_MODULES" := "/a:/b"]}) [])
    /\ get_repos reg' = Returns [LocalRepo "/c" "/c"].
Proof.
  destruct (add_module_path_appends_new_path ":"%char example_normpath "/c"
              (mkSession initial_registry {["CPENV_MODULES" := "/a:/b"]} [])
              [] ["/a"; "/b"]) as [_ H].
  - reflexivity.
  - repeat constructor; discriminate.
  - reflexivity.
  - destruct H as (reg' & Hadd & Hres).
    + intros Hin. elem_discriminate Hin.
    + exists reg'. split; [exact Hres|].
      vm_compute in Hadd. injection Hadd as <-. reflexivity.
Defined.

(** X9: Whatever [CPENV_MODULES] held before, calling [add_module_path] a
    second time with the same path returns the same list and leaves the
    variable and the registry as the first call left them, provided the
    normalized path is not empty and does not contain [os.pathsep]. *)
Theorem add_module_path_idempotent :
  forall (c : ascii) (normpath : list string -> string) (p : string)
         (s : Session) (d : OrderedDict.t Repo),
    let pathsep := String c "" in
    registry s !! "repos" = Some (RepoTable d) ->
    Py.has_char c (normpath [p]) = false ->
    normpath [p] <> "" ->
    exists l s',
      add_module_path pathsep normpath p s = Returns (l, s')
      /\ normpath [p] ∈ l
      /\ add_module_path pathsep normpath p s' = Returns (l, s').
Proof.
  intros c normpath p s d pathsep Hreg Hfree Hne. subst pathsep.
  destruct (add_module_path_unfold c normpath p s d Hreg) as [Hin Hnew].
  pose proof (split_parts_ok c (default "" (os_environ s !! "CPENV_MODULES"))) as Hparts.
  set (parts := List.filter Py.truthy _) in *.
  destruct (decide (normpath [p] ∈ parts)) as [Hp|Hp].
  - eexists _, _. split; [by apply Hin|]. split; [done|].
    destruct (add_module_path_unfold c normpath p
                (mkSession (registry s)
                   (<["CPENV_MODULES" := Py.join (String c "") parts]> (os_environ s))
                   (ensured_paths s)) d Hreg) as [Hin2 _].
    cbn [os_environ registry ensured_paths] in Hin2.
    rewrite lookup_insert_eq in Hin2. simpl default in Hin2.
    rewrite filter_split_go_join in Hin2 by done.
    rewrite insert_insert_eq in Hin2. by apply Hin2.
  - destruct (Hnew Hp) as (reg' & d' & Hadd & Hreg' & Hres).
    eexists _, _. split; [exact Hres|]. split; [apply elem_of_app; right; left|].
    destruct (add_module_path_unfold c normpath p
                (mkSession reg'
                   (<["CPENV_MODULES" := Py.join (String c "") (parts ++ [normpath [p]])]>
                      (os_environ s))
                   (ensured_paths s)) d' Hreg') as [Hin2 _].
    cbn [os_environ registry ensured_paths] in Hin2.
    rewrite lookup_insert_eq in Hin2. simpl default in Hin2.
    rewrite filter_split_go_join in Hin2.
    + rewrite insert_insert_eq in Hin2. apply Hin2. apply elem_of_app. right. left.
    + apply Forall_app. split; [done|]. constructor; [|done].
      split; [done|by apply truthy_nonempty].
Qed.

Lemma add_module_path_idempotent_witness :
  exists l s',
    add_module_path ":" example_normpath "/c"
      (mkSession initial_registry {["CPENV_MODULES" := ":/a::/b:"]} [])
    = Returns (l, s')
    /\ example_normpath ["/c"] ∈ l
    /\ add_module_path ":" example_normpath "/c" s' = Returns (l, s').
Proof.
  apply (add_module_path_idempotent ":"%char example_normpath "/c"
           (mkSession initial_registry {["CPENV_MODULES" := ":/a::/b:"]} []) []).
  - reflexivity.
  - reflexivity.
  - discriminate.
Defined.

Lemma foldl_append_module_path (normpath : list string -> string)
    (parts acc : list string) :
  let l := foldl (append_module_path normpath) acc parts in
  (exists extra, l = acc ++ extra
                 /\ forall x, x ∈ extra -> exists e, e ∈ parts /\ x = normpath [e])
  /\ forall e, e ∈ parts -> e ∈ l \/ normpath [e] ∈ l.
Proof.
  revert acc. induction parts as [|e parts IH]; intros acc; simpl.
  - split.
    + exists []. split; [by rewrite app_nil_r|]. intros x Hx. by apply elem_of_nil in Hx.
    + intros e He. by apply elem_of_nil in He.
  - assert ((append_module_path normpath acc e = acc /\ e ∈ acc)
            \/ append_module_path normpath acc e = acc ++ [normpath [e]]) as Hstep.
    { unfold append_module_path. destruct (Py.contains String.eqb e acc) eqn:E.
      - left. split; [done|]. by apply contains_string.
      - by right. }
    destruct (IH (append_module_path normpath acc e)) as [(extra & Hl & Hextra) Hparts].
    simpl in Hl, Hparts.
    destruct Hstep as [[Hs E]|Hs]; rewrite Hs in Hl, Hparts |- *.
    + split.
      * exists extra. split; [done|]. intros x Hx.
        destruct (Hextra x Hx) as (e' & He' & ->). exists e'. split; [by right|done].
      * intros e' [->|He']%elem_of_cons; [|by apply Hparts].
        left. rewrite Hl. apply elem_of_app. by left.
    + split.
      * exists (normpath [e] :: extra). split.
        { rewrite Hl. by rewrite <- (assoc_L (++)). }
        intros x [->|Hx]%elem_of_cons; [exists e; split; [left|done]|].
        destruct (Hextra x Hx) as (e' & He' & ->). exists e'. split; [by right|done].
      * intros e' [->|He']%elem_of_cons; [|by apply Hparts].
        right. rewrite Hl. apply elem_of_app. left. apply elem_of_app. right. left.
Qed.

(** [get_module_paths] as a fold over the entries of [CPENV_MODULES]. *)
Lemma get_module_paths_unfold (pathsep : string) (normpath : list string -> string)
    (site_data_dir user_data_dir getcwd : string) (env : gmap string string) :
  pathsep <> "" ->
  let entries :=
    match env !! "CPENV_MODULES" with
    | Some v => if Py.truthy v then Py.split_go pathsep 0 "" v else []
    | None => []
    end in
  let user_modules := get_user_modules_path normpath user_data_dir in
  let home_modules := get_home_modules_path normpath site_data_dir env in
  let base := if Py.contains String.eqb home_modules [normpath [getcwd]; user_modules]
              then [normpath [getcwd]; user_modules]
              else [normpath [getcwd]; user_modules] ++ [home_modules] in
  get_module_paths pathsep normpath site_data_dir user_data_dir getcwd env
  = Returns (foldl (append_module_path normpath) base entries).
Proof.
  intros Hsep entries user_modules home_modules base.
  unfold get_module_paths. fold user_modules. fold home_modules. fold base.
  assert (Py.split pathsep = fun v => Returns (Py.split_go pathsep 0 "" v)) as Hsplit
    by by destruct pathsep.
  subst entries. rewrite Hsplit. destruct (env !! "CPENV_MODULES") as [v|]; [|done].
  by destruct (Py.truthy v).
Qed.

(** X10: [get_module_paths()] always starts with the normalized working
    directory and the user modules path and contains the home modules
    path; every further entry is the normalization of an entry of
    [CPENV_MODULES], and every entry of [CPENV_MODULES] is in the result
    either as it is written or normalized. *)
Theorem get_module_paths_layout :
  forall (pathsep : string) (normpath : list string -> string)
         (site_data_dir user_data_dir getcwd : string) (env : gmap string string),
    pathsep <> "" ->
    let entries :=
      match env !! "CPENV_MODULES" with
      | Some v => if Py.truthy v then Py.split_go pathsep 0 "" v else []
      | None => []
      end in
    let user_modules := get_user_modules_path normpath user_data_dir in
    let home_modules := get_home_modules_path normpath site_data_dir env in
    exists rest,
      let l := normpath [getcwd] :: user_modules :: rest in
      get_module_paths pathsep normpath site_data_dir user_data_dir getcwd env
      = Returns l
      /\ home_modules ∈ l
      /\ (forall x, x ∈ rest ->
            x = home_modules \/ exists e, e ∈ entries /\ x = normpath [e])
      /\ (forall e, e ∈ entries -> e ∈ l \/ normpath [e] ∈ l).
Proof.
  intros pathsep normpath site_data_dir user_data_dir getcwd env Hsep
         entries user_modules home_modules.
  rewrite get_module_paths_unfold by done. fold entries user_modules home_modules.
  set (base := if Py.contains String.eqb home_modules [normpath [getcwd]; user_modules]
               then [normpath [getcwd]; user_modules]
               else [normpath [getcwd]; user_modules] ++ [home_modules]).
  assert (exists rest0, base = normpath [getcwd] :: user_modules :: rest0
                         /\ home_modules ∈ base
                         /\ forall x, x ∈ rest0 -> x = home_modules)
    as (rest0 & Hbase & Hhome & Hrest0).
  { subst base.
    destruct (Py.contains String.eqb home_modules _) eqn:E.
    - exists []. split; [done|]. split; [by apply contains_string|].
      intros x Hx. by apply elem_of_nil in Hx.
    - exists [home_modules]. split; [done|]. split.
      + do 2 right. left.
      + by intros x ->%list_elem_of_singleton. }
  destruct (foldl_append_module_path normpath entries base)
    as [(extra & Hl & Hextra) Hparts].
  exists (rest0 ++ extra).
  rewrite Hl, Hbase. simpl. split; [done|]. split_and!.
  - rewrite Hbase in Hhome. rewrite app_comm_cons, app_comm_cons.
    apply elem_of_app. by left.
  - intros x [Hx|Hx]%elem_of_app; [left; by apply Hrest0|right; by apply Hextra].
  - intros e He. rewrite Hl, Hbase in Hparts. by apply Hparts.
Qed.

Lemma get_module_paths_layout_witness :
  exists rest,
    get_module_paths ":" example_normpath "/usr/share/cpenv" "/home/u/.local/share/cpenv"
      "/work" {["CPENV_MODULES" := "/a:/work"]}
    = Returns ("/work" :: "/home/u/.local/share/cpenv/modules" :: rest)
    /\ "/usr/share/cpenv/modules" ∈ rest.
Proof.
  destruct (get_module_paths_layout ":" example_normpath "/usr/share/cpenv"
              "/home/u/.local/share/cpenv" "/work" {["CPENV_MODULES" := "/a:/work"]})
    as (rest & Hget & _).
  - discriminate.
  - exists rest. split; [exact Hget|].
    vm_compute in Hget. injection Hget as <-. left.
Defined.

(** ** The active-module registry: removing *)

Section SortSnoc.

Context {A : Type} (leb : A -> A -> bool).

Lemma insert_sorted_head (x : A) (l : list A) :
  HdRel (Py.ordered leb) x l -> Py.insert_sorted leb x l = x :: l.
Proof. intros [|y l' Hxy]; simpl; [done|]. unfold Py.ordered in Hxy. by rewrite Hxy. Qed.

(** Sorting a sorted list with one more element at its end puts that
    element somewhere and keeps the others as they were. *)
Lemma sort_with_snoc_sorted (ms : list A) (m : A) :
  Sorted (Py.ordered leb) ms ->
  exists l1 l2, Py.sort_with leb (ms ++ [m]) = l1 ++ m :: l2 /\ l1 ++ l2 = ms.
Proof.
  unfold Py.sort_with. rewrite foldr_app. simpl.
  induction 1 as [|x ms Hs (l1 & l2 & IH & Hms) Hhd]; simpl.
  - by exists [], [].
  - rewrite IH. destruct l1 as [|y l1]; simpl in *.
    + subst l2. destruct (leb x m).
      * by exists [x], ms.
      * exists [], (x :: ms). by rewrite insert_sorted_head.
    + subst ms. apply HdRel_inv in Hhd. unfold Py.ordered in Hhd. rewrite Hhd.
      by exists (x :: y :: l1), l2.
Qed.

Lemma remove_middle (eqb : A -> A -> bool) (m : A) (l1 l2 : list A) :
  (forall y, y ∈ l1 -> eqb m y = false) -> eqb m m = true ->
  Py.remove eqb m (l1 ++ m :: l2) = l1 ++ l2.
Proof.
  intros Hl1 Hm. induction l1 as [|y l1 IH]; simpl; [by rewrite Hm|].
  rewrite (Hl1 y) by left. f_equal. apply IH. intros z Hz. apply Hl1. by right.
Qed.

Lemma remove_eq_not_elem (eqb : A -> A -> bool) (m : A) (l : list A) :
  (forall x y, eqb x y = true <-> x = y) -> NoDup l ->
  (m ∉ Py.remove eqb m l)
  /\ forall x, x <> m -> x ∈ l -> x ∈ Py.remove eqb m l.
Proof.
  intros Heq. induction 1 as [|y l Hy Hnd [IH1 IH2]]; simpl.
  - split; [apply not_elem_of_nil|done].
  - destruct (eqb m y) eqn:E.
    + apply Heq in E as <-. split; [done|].
      intros x Hne [->|Hx]%elem_of_cons; done.
    + split.
      * intros [->|Hin]%elem_of_cons; [|done].
        assert (eqb y y = true) as Hyy by by apply Heq. congruence.
      * intros x Hne [->|Hx]%elem_of_cons; [left|right; by apply IH2].
Qed.

End SortSnoc.

(** X11: Activating a module that is not active and deactivating it again
    gives back the registry as it was, when that was sorted by
    [real_name]; [CPENV_ACTIVE_MODULES] then lists that registry. *)
Theorem remove_after_add_restores_registry :
  forall (pathsep : string) (Module_eqb : Module -> Module -> bool)
         (m : Module) (st : ActiveState),
    (forall x, Module_eqb x x = true) ->
    Py.contains Module_eqb m (_active_modules st) = false ->
    Sorted (Py.key_le real_name) (_active_modules st) ->
    let st' := remove_active_module pathsep Module_eqb m
                 (add_active_module pathsep Module_eqb m st) in
    _active_modules st' = _active_modules st
    /\ environ st'
       = <["CPENV_ACTIVE_MODULES" := serialize pathsep (_active_modules st)]> (environ st).
Proof.
  intros pathsep Module_eqb m st Hrefl Hnot Hsorted st'.
  assert (_active_modules st' = _active_modules st) as Hms.
  { subst st'. unfold remove_active_module.
    rewrite (add_elem_of pathsep Module_eqb Hrefl). cbn [_active_modules].
    unfold add_active_module. cbn [_active_modules]. rewrite Hnot.
    destruct (sort_with_snoc_sorted (Py.key_leb real_name) (_active_modules st) m Hsorted)
      as (l1 & l2 & Hsort & Hms).
    unfold Py.sort_by. rewrite Hsort, <- Hms. apply remove_middle; [|done].
    intros y Hy. apply (contains_false _ _ _ Hnot). rewrite <- Hms.
    apply elem_of_app. by left. }
  split; [done|]. subst st'. unfold remove_active_module at 1.
  cbn [environ]. unfold remove_active_module in Hms. cbn [_active_modules] in Hms.
  rewrite Hms. unfold add_active_module. cbn [environ]. by rewrite insert_insert_eq.
Qed.

Lemma remove_after_add_restores_registry_witness :
  _active_modules
    (remove_active_module ":" Module_path_eqb a_home
       (add_active_module ":" Module_path_eqb a_home (mkActive [b_home] ∅)))
  = [b_home].
Proof.
  apply (remove_after_add_restores_registry ":" Module_path_eqb a_home
           (mkActive [b_home] ∅)).
  - intros x. apply String.eqb_refl.
  - reflexivity.
  - repeat constructor.
Defined.

Lemma Module_all_eqb_eq (m1 m2 : Module) : Module_all_eqb m1 m2 = true <-> m1 = m2.
Proof.
  unfold Module_all_eqb. rewrite !andb_true_iff, !String.eqb_eq.
  destruct m1, m2; simpl. split; [intros [[[-> ->] ->] ->]; done|by intros [= -> -> -> ->]].
Defined.

(** X12: With modules compared by what they are and no module registered
    twice, [remove_active_module(m)] leaves [m] inactive and keeps every
    other module, in the order they had. *)
Theorem remove_active_module_deactivates :
  forall (pathsep : string) (Module_eqb : Module -> Module -> bool)
         (m : Module) (st : ActiveState),
    (forall x y, Module_eqb x y = true <-> x = y) ->
    NoDup (_active_modules st) ->
    let st' := remove_active_module pathsep Module_eqb m st in
    (m ∉ _active_modules st')
    /\ (forall x, x <> m -> x ∈ _active_modules st -> x ∈ _active_modules st')
    /\ _active_modules st' `sublist_of` _active_modules st
    /\ environ st' !! "CPENV_ACTIVE_MODULES"
       = Some (serialize pathsep (_active_modules st')).
Proof.
  intros pathsep Module_eqb m st Heq Hnd st'. subst st'.
  unfold remove_active_module. cbn [_active_modules environ].
  rewrite lookup_insert_eq.
  destruct (Py.contains Module_eqb m (_active_modules st)) eqn:E.
  - destruct (remove_eq_not_elem Module_eqb m (_active_modules st) Heq Hnd) as [H1 H2].
    split_and!; [done|done|apply remove_sublist|done].
  - split_and!; [|done|done|done].
    intros Hin. assert (Module_eqb m m = true) as Hmm by by apply Heq.
    by rewrite (contains_false _ _ _ E m Hin) in Hmm.
Qed.

Lemma remove_active_module_deactivates_witness :
  (a_home ∉ _active_modules
              (remove_active_module ":" Module_all_eqb a_home
                 (mkActive [a_home; a_user; b_home] ∅)))
  /\ a_user ∈ _active_modules
               (remove_active_module ":" Module_all_eqb a_home
                  (mkActive [a_home; a_user; b_home] ∅)).
Proof.
  destruct (remove_active_module_deactivates ":" Module_all_eqb a_home
              (mkActive [a_home; a_user; b_home] ∅)) as (H1 & H2 & _).
  - exact Module_all_eqb_eq.
  - simpl. nodup_discriminate.
  - split; [exact H1|]. apply H2; [discriminate|]. simpl. right. left.
Defined.

(** ** Sorting modules *)

Lemma string_ltb_false (a b : string) : String.ltb a b = false <-> String.leb b a = true.
Proof.
  unfold String.ltb, String.leb. rewrite (String.compare_antisym a b).
  by destruct (String.compare b a).
Qed.

Lemma string_leb_trans (a b c : string) :
  String.leb a b = true -> String.leb b c = true -> String.leb a c = true.
Proof.
  intros Hab%Is_true_true Hbc%Is_true_true. apply Is_true_true.
  by apply (transitivity (R:=String.le) (y:=b)).
Qed.

Lemma StronglySorted_snoc {A} (R : relation A) (l : list A) (x : A) :
  StronglySorted R l -> Forall (fun y => R y x) l -> StronglySorted R (l ++ [x]).
Proof.
  induction 1 as [|y l Hs IH Hall]; intros Hx; simpl.
  - by repeat constructor.
  - apply Forall_cons in Hx as [Hyx Hx]. constructor; [by apply IH|].
    apply Forall_app. split; [done|]. by constructor.
Qed.

Lemma StronglySorted_rev {A} (R : relation A) (l : list A) :
  StronglySorted R l -> StronglySorted (flip R) (rev l).
Proof.
  induction 1 as [|x l Hs IH Hall]; simpl; [constructor|].
  apply StronglySorted_snoc; [done|]. by apply Forall_rev.
Qed.

Lemma StronglySorted_weaken {A} (R R' : relation A) (l : list A) :
  (forall x y, R x y -> R' x y) -> StronglySorted R l -> StronglySorted R' l.
Proof.
  intros HR. induction 1 as [|x l Hs IH Hall]; constructor; [done|].
  eapply Forall_impl; [done|]. intros y. apply HR.
Qed.

Section SortModulesFacts.

Context {M V : Type}.
Variable module_real_name : M -> string.
Variable module_version : M -> V.
Variable version_ltb : V -> V -> bool.

(** [<] on versions is asymmetric, and "not above" is transitive, as
    for any total order. *)
Hypothesis version_ltb_asym : forall v w, version_ltb v w = true -> version_ltb w v = false.
Hypothesis version_not_above_trans :
  forall u v w, version_ltb v u = false -> version_ltb w v = false ->
                version_ltb w u = false.

#[local] Abbreviation key_ltb := (sort_key_ltb module_real_name module_version version_ltb).
#[local] Abbreviation key_leb := (fun x y => negb (key_ltb y x)).

Lemma sort_key_ltb_asym (x y : M) : key_ltb x y = true -> key_ltb y x = false.
Proof.
  unfold sort_key_ltb. rewrite (String.eqb_sym (module_real_name y)).
  destruct (String.eqb (module_real_name x) (module_real_name y)) eqn:E.
  - apply version_ltb_asym.
  - unfold String.ltb. rewrite (String.compare_antisym (module_real_name x)).
    by destruct (String.compare (module_real_name y) (module_real_name x)).
Qed.

Lemma sort_key_leb_total (x y : M) : key_leb x y = false -> key_leb y x = true.
Proof.
  intros H%negb_false_iff. apply negb_true_iff. by apply sort_key_ltb_asym.
Qed.

#[local] Instance sort_key_leb_trans : Transitive (Py.ordered key_leb).
Proof.
  intros x y z. unfold Py.ordered. rewrite !negb_true_iff. unfold sort_key_ltb.
  rewrite (String.eqb_sym (module_real_name y) (module_real_name x)),
          (String.eqb_sym (module_real_name z) (module_real_name y)),
          (String.eqb_sym (module_real_name z) (module_real_name x)).
  destruct (String.eqb_spec (module_real_name x) (module_real_name y)) as [Exy|Exy],
           (String.eqb_spec (module_real_name y) (module_real_name z)) as [Eyz|Eyz].
  - rewrite Exy, Eyz, String.eqb_refl. apply version_not_above_trans.
  - rewrite Exy. apply String.eqb_neq in Eyz as ->. done.
  - rewrite <- Eyz. apply String.eqb_neq in Exy as ->. done.
  - rewrite !string_ltb_false. intros Hxy Hyz.
    destruct (String.eqb_spec (module_real_name x) (module_real_name z)) as [Exz|Exz].
    + exfalso. apply Exy. apply String.leb_antisym; [done|]. by rewrite Exz.
    + apply string_ltb_false. by eapply string_leb_trans.
Qed.

Lemma sort_modules_perm (modules : list M) (reverse : bool) :
  sort_modules module_real_name module_version version_ltb modules reverse ≡ₚ modules.
Proof.
  unfold sort_modules, Py.sorted. destruct reverse.
  - by rewrite <- Permutation_rev, sort_with_perm, <- Permutation_rev.
  - apply sort_with_perm.
Qed.

Lemma sort_modules_sorted (modules : list M) (reverse : bool) :
  StronglySorted
    (fun x y => if reverse then key_ltb x y = false else key_ltb y x = false)
    (sort_modules module_real_name module_version version_ltb modules reverse).
Proof.
  unfold sort_modules, Py.sorted. destruct reverse.
  - eapply (StronglySorted_weaken (flip (Py.ordered key_leb))).
    { intros x y. unfold flip, Py.ordered. by rewrite negb_true_iff. }
    apply StronglySorted_rev, Sorted_StronglySorted; [apply sort_key_leb_trans|].
    apply sort_with_Sorted, sort_key_leb_total.
  - eapply (StronglySorted_weaken (Py.ordered key_leb)).
    { intros x y. unfold Py.ordered. by rewrite negb_true_iff. }
    apply Sorted_StronglySorted; [apply sort_key_leb_trans|].
    apply sort_with_Sorted, sort_key_leb_total.
Qed.

End SortModulesFacts.

Lemma Version_ltb_asym (v w : Version) : Version_ltb v w = true -> Version_ltb w v = false.
Proof.
  unfold Version_ltb. rewrite (Version_compare_antisym v w).
  by destruct (Version_compare v w).
Qed.

Lemma Version_ltb_false (v w : Version) : Version_ltb v w = false <-> Version_leb w v = true.
Proof.
  unfold Version_ltb, Version_leb. rewrite (Version_compare_antisym v w).
  by destruct (Version_compare v w).
Qed.

Lemma Version_not_above_trans (u v w : Version) :
  Version_ltb v u = false -> Version_ltb w v = false -> Version_ltb w u = false.
Proof.
  rewrite !Version_ltb_false. apply Version_leb_trans.
Qed.

(** X13: [sort_modules(modules, reverse)] returns the modules it was given,
    each as often as it was given, ordered by [real_name] and, among equal
    names, by version: ascending, or descending when [reverse] is set. *)
Theorem sort_modules_sorted_permutation :
  forall (M V : Type) (module_real_name : M -> string) (module_version : M -> V)
         (version_ltb : V -> V -> bool) (modules : list M) (reverse : bool),
    (forall v w, version_ltb v w = true -> version_ltb w v = false) ->
    (forall u v w, version_ltb v u = false -> version_ltb w v = false ->
                   version_ltb w u = false) ->
    let key_ltb := sort_key_ltb module_real_name module_version version_ltb in
    let sorted := sort_modules module_real_name module_version version_ltb
                    modules reverse in
    sorted ≡ₚ modules
    /\ StronglySorted
         (fun x y => if reverse then key_ltb x y = false else key_ltb y x = false)
         sorted.
Proof.
  intros M V module_real_name module_version version_ltb modules reverse Hasym Htrans
         key_ltb sorted.
  split; [apply sort_modules_perm|by apply sort_modules_sorted].
Qed.

Lemma sort_modules_sorted_permutation_witness :
  sort_modules spec_real_name spec_version Version_ltb
    [tools_1; moduleA_2; app_1; moduleA_1] true
  ≡ₚ [tools_1; moduleA_2; app_1; moduleA_1]
  /\ StronglySorted
       (fun x y => sort_key_ltb spec_real_name spec_version Version_ltb x y = false)
       (sort_modules spec_real_name spec_version Version_ltb
          [tools_1; moduleA_2; app_1; moduleA_1] true).
Proof.
  apply (sort_modules_sorted_permutation ModuleSpec Version spec_real_name spec_version
           Version_ltb [tools_1; moduleA_2; app_1; moduleA_1] true).
  - exact Version_ltb_asym.
  - exact Version_not_above_trans.
Defined.

Lemma foldl_extend {A B} (f : A -> list B) (l : list A) (acc : list B) :
  foldl (fun modules x => modules ++ f x) acc l = acc ++ mjoin (f <$> l).
Proof.
  revert acc. induction l as [|x l IH]; intros acc; simpl.
  - by rewrite app_nil_r.
  - rewrite IH. by rewrite <- (assoc_L (++)).
Qed.

(** X14: [get_modules()] without requirements returns every module that the
    registered repositories list, each as often as it is listed, ordered
    by [real_name] and version. *)
Theorem get_modules_lists_every_module :
  forall (Resolver_resolve : list Repo -> list string -> Outcome (list ModuleSpec))
         (Repo_list : Repo -> list ModuleSpec)
         (version_ltb : Version -> Version -> bool)
         (reg : Registry) (d : OrderedDict.t Repo),
    (forall v w, version_ltb v w = true -> version_ltb w v = false) ->
    (forall u v w, version_ltb v u = false -> version_ltb w v = false ->
                   version_ltb w u = false) ->
    reg !! "repos" = Some (RepoTable d) ->
    exists modules,
      get_modules Resolver_resolve Repo_list version_ltb [] reg = Returns modules
      /\ modules ≡ₚ mjoin (Repo_list <$> OrderedDict.values d)
      /\ StronglySorted
           (fun x y => sort_key_ltb spec_real_name spec_version version_ltb y x = false)
           modules.
Proof.
  intros Resolver_resolve Repo_list version_ltb reg d Hasym Htrans Hreg.
  unfold get_modules. rewrite (get_repos_Some _ _ Hreg), bind_Returns.
  eexists. split; [done|]. split.
  - rewrite sort_modules_perm. by rewrite foldl_extend.
  - by apply (sort_modules_sorted spec_real_name spec_version version_ltb Hasym Htrans
                _ false).
Qed.

Lemma get_modules_lists_every_module_witness :
  exists modules,
    get_modules (fun _ _ => Raises ResolveError) example_storage Version_ltb []
                example_registry = Returns modules
    /\ modules ≡ₚ [moduleA_1; moduleA_2; app_1; tools_1; moduleA_3_user; cycA; cycB].
Proof.
  destruct (get_modules_lists_every_module (fun _ _ => Raises ResolveError)
              example_storage Version_ltb example_registry
              [("home", home_repo); ("user", user_repo)])
    as (modules & Hget & Hperm & _).
  - exact Version_ltb_asym.
  - exact Version_not_above_trans.
  - reflexivity.
  - exists modules. split; [exact Hget|exact Hperm].
Defined.

(** ** Choosing a repository at the prompt *)

Lemma default_index_snoc (repos : list Repo) (r : Repo) (n : string) :
  default_index (repos ++ [r]) n
  = if String.eqb (repo_name r) n then Some (length repos) else default_index repos n.
Proof.
  unfold default_index. rewrite imap_app, foldl_app. simpl.
  by rewrite Nat.add_0_r.
Qed.

Lemma default_index_last (l1 : list Repo) (r : Repo) (l2 : list Repo) (n : string) :
  repo_name r = n -> (forall r', r' ∈ l2 -> repo_name r' <> n) ->
  default_index (l1 ++ r :: l2) n = Some (length l1).
Proof.
  intros Hr. induction l2 as [|x l2 IH] using rev_ind; intros Hl2.
  - rewrite default_index_snoc. apply String.eqb_eq in Hr. by rewrite Hr.
  - rewrite app_comm_cons, (assoc_L (++)), default_index_snoc.
    assert (String.eqb (repo_name x) n = false) as ->.
    { apply String.eqb_neq, Hl2, elem_of_app. right. left. }
    apply IH. intros r' Hr'. apply Hl2, elem_of_app. by left.
Qed.

Lemma default_index_None (repos : list Repo) (n : string) :
  default_index repos n = None <-> forall r, r ∈ repos -> repo_name r <> n.
Proof.
  induction repos as [|x repos IH] using rev_ind.
  - split; [|done]. intros _ r Hr. by apply elem_of_nil in Hr.
  - rewrite default_index_snoc.
    destruct (String.eqb_spec (repo_name x) n) as [Hx|Hx].
    + split; [done|]. intros H. exfalso. apply (H x); [|done].
      apply elem_of_app. right. left.
    + rewrite IH. split.
      * intros H r [Hr|Hr%list_elem_of_singleton]%elem_of_app; [by apply H|by subst].
      * intros H r Hr. apply H, elem_of_app. by left.
Qed.

Lemma getitem_nat {A} (l : list A) (i : nat) :
  Py.getitem l (Z.of_nat i) = l !! i.
Proof.
  unfold Py.getitem. destruct (Z.ltb_spec (Z.of_nat i) 0); [lia|].
  by rewrite Nat2Z.id.
Qed.

(** X15: With a repository called [default_repo_name] in the list and
    something typed that [int] reads as [z]: an index beyond the end
    leaves with exit code 1, an index within the list selects that
    repository, a negative index down to minus the length is accepted and
    counts from the end, and one below that raises [IndexError].  Input
    that [int] does not read raises [ValueError]. *)
Theorem prompt_for_repo_choice_bounds :
  forall (py_int : string -> option Z) (repos : list Repo)
         (default_repo_name choice : string),
    (exists r, r ∈ repos /\ repo_name r = default_repo_name) ->
    choice <> "" ->
    let n := Z.of_nat (length repos) in
    let result := prompt_for_repo py_int repos default_repo_name choice in
    (py_int choice = None -> result = Raises ValueError)
    /\ forall z, py_int choice = Some z ->
         ((n <= z)%Z -> result = Exits 1)
         /\ ((0 <= z < n)%Z ->
             exists r, repos !! Z.to_nat z = Some r /\ result = Returns r)
         /\ ((- n <= z < 0)%Z ->
             exists r, repos !! Z.to_nat (n + z) = Some r /\ result = Returns r)
         /\ ((z < - n)%Z -> result = Raises IndexError).
Proof.
  intros py_int repos default_repo_name choice (r0 & Hr0 & Hname) Hchoice n result.
  subst result n. unfold prompt_for_repo.
  destruct (default_index repos default_repo_name) as [default|] eqn:Hdef.
  2: { exfalso. by apply (proj1 (default_index_None _ _) Hdef r0). }
  apply truthy_nonempty in Hchoice. rewrite Hchoice. split; [by intros ->|].
  intros z ->. unfold index_or_raise, Py.getitem.
  set (n := Z.of_nat (length repos)).
  assert (n = Z.of_nat (length repos)) as Hn by done. clearbody n.
  split_and!; intros Hz.
  - by destruct (Z.gtb_spec z (n - 1)); [|lia].
  - destruct (Z.gtb_spec z (n - 1)); [lia|].
    destruct (Z.ltb_spec z 0); [lia|].
    destruct (lookup_lt_is_Some_2 repos (Z.to_nat z)) as [r Hr]; [lia|].
    exists r. by rewrite Hr.
  - destruct (Z.gtb_spec z (n - 1)); [lia|].
    destruct (Z.ltb_spec z 0); [|lia].
    destruct (Z.ltb_spec (z + n) 0); [lia|].
    destruct (lookup_lt_is_Some_2 repos (Z.to_nat (n + z))) as [r Hr]; [lia|].
    exists r. split; [done|]. by rewrite Z.add_comm, Hr.
  - destruct (Z.gtb_spec z (n - 1)); [lia|].
    destruct (Z.ltb_spec z 0); [|lia].
    by destruct (Z.ltb_spec (z + n) 0); [|lia].
Qed.

Lemma prompt_for_repo_choice_bounds_witness :
  prompt_for_repo example_int [home_repo; user_repo] "home" "-1" = Returns user_repo
  /\ prompt_for_repo example_int [home_repo; user_repo] "home" "2" = Exits 1
  /\ prompt_for_repo example_int [home_repo; user_repo] "home" "-3" = Raises IndexError.
Proof.
  assert (exists r, r ∈ [home_repo; user_repo] /\ repo_name r = "home") as Hhome.
  { exists home_repo. split; [left|reflexivity]. }
  split; [|split].
  - destruct (prompt_for_repo_choice_bounds example_int [home_repo; user_repo]
                "home" "-1" Hhome) as [_ H]; [discriminate|].
    destruct (H (-1)%Z) as (_ & _ & Hneg & _); [reflexivity|].
    destruct Hneg as (r & Hr & Hres); [simpl; lia|].
    simpl in Hr. injection Hr as <-. exact Hres.
  - destruct (prompt_for_repo_choice_bounds example_int [home_repo; user_repo]
                "home" "2" Hhome) as [_ H]; [discriminate|].
    destruct (H 2%Z) as (Hbig & _); [reflexivity|].
    apply Hbig. simpl. lia.
  - destruct (prompt_for_repo_choice_bounds example_int [home_repo; user_repo]
                "home" "-3" Hhome) as [_ H]; [discriminate|].
    destruct (H (-3)%Z) as (_ & _ & _ & Hlow); [reflexivity|].
    apply Hlow. simpl. lia.
Defined.

(** X16: An empty answer selects the last repository in the list that is
    called [default_repo_name]; when no repository carries that name the
    call raises [UnboundLocalError] whatever is typed. *)
Theorem prompt_for_repo_default :
  forall (py_int : string -> option Z) (repos : list Repo) (default_repo_name : string),
    (forall l1 r l2,
        repos = l1 ++ r :: l2 -> repo_name r = default_repo_name ->
        (forall r', r' ∈ l2 -> repo_name r' <> default_repo_name) ->
        prompt_for_repo py_int repos default_repo_name "" = Returns r)
    /\ ((forall r, r ∈ repos -> repo_name r <> default_repo_name) ->
        forall choice,
          prompt_for_repo py_int repos default_repo_name choice
          = Raises UnboundLocalError).
Proof.
  intros py_int repos default_repo_name. split.
  - intros l1 r l2 -> Hr Hl2. unfold prompt_for_repo.
    rewrite (default_index_last l1 r l2 _ Hr Hl2). simpl.
    unfold index_or_raise. rewrite getitem_nat.
    by rewrite list_lookup_middle.
  - intros Hnone choice. unfold prompt_for_repo.
    by rewrite (proj2 (default_index_None _ _) Hnone).
Qed.

Lemma prompt_for_repo_default_witness :
  prompt_for_repo example_int
    [home_repo; user_repo; LocalRepo "home" "/second/home"] "home" ""
  = Returns (LocalRepo "home" "/second/home")
  /\ prompt_for_repo example_int [user_repo] "home" "0" = Raises UnboundLocalError.
Proof.
  split.
  - destruct (prompt_for_repo_default example_int
                [home_repo; user_repo; LocalRepo "home" "/second/home"] "home")
      as [H _].
    apply (H [home_repo; user_repo] (LocalRepo "home" "/second/home") []).
    + reflexivity.
    + reflexivity.
    + intros r' Hr'. by apply elem_of_nil in Hr'.
  - destruct (prompt_for_repo_default example_int [user_repo] "home") as [_ H].
    apply H. intros r Hr. apply list_elem_of_singleton in Hr. subst r. discriminate.
Defined.

(** ** Creating a module *)



(** ** The active-module registry: order of activation *)

Lemma sorted_perm_unique {A} (key : A -> string) (l1 l2 : list A) :
  Sorted (Py.key_le key) l1 -> Sorted (Py.key_le key) l2 ->
  l1 ≡ₚ l2 -> NoDup (key <$> l1) -> l1 = l2.
Proof.
  intros Hs1%Sorted_StronglySorted Hs2%Sorted_StronglySorted;
    [|apply key_le_trans|apply key_le_trans].
  revert l2 Hs2. induction Hs1 as [|x l1 Hs1 IH Hall1]; intros l2 Hs2 Hperm Hnd.
  - by apply Permutation_nil in Hperm.
  - destruct Hs2 as [|y l2 Hs2 Hall2].
    { symmetry in Hperm. by apply Permutation_nil in Hperm. }
    rewrite fmap_cons in Hnd. apply NoDup_cons in Hnd as [Hx Hnd].
    assert (x = y) as ->.
    { assert (x ∈ y :: l2) as Hxin by (rewrite <- Hperm; left).
      assert (y ∈ x :: l1) as Hyin by (rewrite Hperm; left).
      apply elem_of_cons in Hxin as [->|Hxin]; [done|].
      apply elem_of_cons in Hyin as [->|Hyin]; [done|].
      rewrite Forall_forall in Hall1, Hall2.
      pose proof (Hall1 y Hyin) as Hxy. pose proof (Hall2 x Hxin) as Hyx.
      unfold Py.key_le, Py.ordered, Py.key_leb in Hxy, Hyx.
      exfalso. apply Hx. rewrite (String.leb_antisym _ _ Hxy Hyx).
      apply list_elem_of_fmap. by exists y. }
    f_equal. apply IH; [done| |done]. by apply Permutation_cons_inv in Hperm.
Qed.



(** ** Removing, cloning and publishing: edge behaviour *)

Lemma get_repo_unregistered (g : Repo -> string -> option PyAtom) (reg : Registry)
    (d : OrderedDict.t Repo) (n : string) :
  (forall repo, g repo "name" = Some (AStr (repo_name repo))) ->
  reg !! "repos" = Some (RepoTable d) ->
  (forall r, r ∈ OrderedDict.values d -> repo_name r <> n) ->
  get_repo g (ArgAtom (AStr n)) [] reg = Returns None.
Proof.
  intros Hname Hreg Hnone. rewrite (get_repo_by_name g Hname reg d n Hreg).
  f_equal. apply find_none. intros y Hy. apply String.eqb_neq. by apply Hnone.
Qed.

Lemma get_repo_registered (g : Repo -> string -> option PyAtom) (reg : Registry)
    (d : OrderedDict.t Repo) (n : string) (l1 : list Repo) (r : Repo) (l2 : list Repo) :
  (forall repo, g repo "name" = Some (AStr (repo_name repo))) ->
  reg !! "repos" = Some (RepoTable d) ->
  OrderedDict.values d = l1 ++ r :: l2 -> repo_name r = n ->
  (forall r', r' ∈ l1 -> repo_name r' <> n) ->
  get_repo g (ArgAtom (AStr n)) [] reg = Returns (Some r).
Proof.
  intros Hname Hreg Hd Hr Hl1. rewrite (get_repo_by_name g Hname reg d n Hreg).
  f_equal. rewrite Hd. apply find_first.
  - intros y Hy. apply String.eqb_neq. by apply Hl1.
  - by apply String.eqb_eq.
Qed.

(** X19: [remove] by requirement string: without [from_repo] it raises
    [ValueError]; with the name of no registered repository it raises
    [AttributeError]; with the name of a registered one it removes the
    first module that repository finds for the requirement, and raises
    [IndexError] when it finds none. *)
Theorem remove_by_name_edge_cases :
  forall (Repo_getattr : Repo -> string -> option PyAtom)
         (Repo_find : Repo -> string -> Outcome (list ModuleSpec))
         (Removed : Type) (Module_remove : Module -> Outcome Removed)
         (Repo_remove : Repo -> ModuleSpec -> Outcome Removed)
         (requirement : string) (reg : Registry) (d : OrderedDict.t Repo) (n : string),
    (forall repo, Repo_getattr repo "name" = Some (AStr (repo_name repo))) ->
    reg !! "repos" = Some (RepoTable d) ->
    let remove_from from_repo :=
      remove Repo_getattr Repo_find Module_remove Repo_remove
             (ArgName requirement) from_repo reg in
    remove_from (ArgAtom ANone) = Raises ValueError
    /\ ((forall r, r ∈ OrderedDict.values d -> repo_name r <> n) ->
        remove_from (ArgAtom (AStr n)) = Raises AttributeError)
    /\ (forall l1 r l2,
          OrderedDict.values d = l1 ++ r :: l2 -> repo_name r = n ->
          (forall r', r' ∈ l1 -> repo_name r' <> n) ->
          (Repo_find r requirement = Returns [] ->
           remove_from (ArgAtom (AStr n)) = Raises IndexError)
          /\ (forall spec rest,
                Repo_find r requirement = Returns (spec :: rest) ->
                remove_from (ArgAtom (AStr n)) = Repo_remove r spec)).
Proof.
  intros g Repo_find Removed Module_remove Repo_remove requirement reg d n Hname Hreg
         remove_from.
  subst remove_from. split; [done|]. split.
  - intros Hnone. unfold remove.
    by rewrite (get_repo_unregistered g reg d n Hname Hreg Hnone).
  - intros l1 r l2 Hd Hr Hl1. unfold remove.
    rewrite (get_repo_registered g reg d n l1 r l2 Hname Hreg Hd Hr Hl1).
    rewrite bind_Returns. unfold on_repo. split.
    + by intros ->.
    + by intros spec rest ->.
Qed.

Lemma remove_by_name_edge_cases_witness :
  remove example_getattr (fun repo _ => Returns (example_storage repo))
         (fun _ => Returns "module removed") (fun _ spec => Returns (spec_real_name spec))
         (ArgName "moduleA") (ArgAtom (AStr "nowhere")) example_registry
  = Raises AttributeError
  /\ remove example_getattr (fun repo _ => Returns (example_storage repo))
            (fun _ => Returns "module removed")
            (fun _ spec => Returns (spec_real_name spec))
            (ArgName "moduleA") (ArgAtom (AStr "user")) example_registry
     = Returns "moduleA-3.0.0".
Proof.
  destruct (remove_by_name_edge_cases example_getattr
              (fun repo _ => Returns (example_storage repo)) string
              (fun _ => Returns "module removed")
              (fun _ spec => Returns (spec_real_name spec))
              "moduleA" example_registry [("home", home_repo); ("user", user_repo)]
              "nowhere") as (_ & Hnone & _).
  { intros repo. reflexivity. }
  { reflexivity. }
  destruct (remove_by_name_edge_cases example_getattr
              (fun repo _ => Returns (example_storage repo)) string
              (fun _ => Returns "module removed")
              (fun _ spec => Returns (spec_real_name spec))
              "moduleA" example_registry [("home", home_repo); ("user", user_repo)]
              "user") as (_ & _ & Hfound).
  { intros repo. reflexivity. }
  { reflexivity. }
  split.
  - apply Hnone. intros r Hr. simpl in Hr. elem_discriminate_name Hr.
  - destruct (Hfound [home_repo] user_repo []) as [_ H].
    + reflexivity.
    + reflexivity.
    + intros r' Hr'. elem_discriminate_name Hr'.
    + apply (H moduleA_3_user [cycA; cycB]). reflexivity.
Defined.

(** X20: [clone] handed a [Module] or a [ModuleSpec] instead of a requirement
    string raises [UnboundLocalError] whatever the other arguments are;
    handed a requirement and the name of no registered repository, it
    raises [AttributeError] and downloads nothing. *)
Theorem clone_edge_cases :
  forall (Repo_getattr : Repo -> string -> option PyAtom)
         (normpath : list string -> string)
         (Resolver_resolve : list Repo -> list string -> Outcome (list ModuleSpec))
         (Repo_find : Repo -> string -> Outcome (list ModuleSpec))
         (Repo_download : Repo -> ModuleSpec -> string -> bool -> Outcome Module)
         (from_repo : RepoArg) (where_ : option string) (overwrite : bool)
         (reg : Registry),
    let clone_it module from_repo :=
      clone Repo_getattr normpath Resolver_resolve Repo_find Repo_download
            module from_repo where_ overwrite reg in
    (forall m, clone_it (ArgModule m) from_repo = Raises UnboundLocalError)
    /\ (forall spec, clone_it (ArgSpec spec) from_repo = Raises UnboundLocalError)
    /\ (forall d n requirement,
          (forall repo, Repo_getattr repo "name" = Some (AStr (repo_name repo))) ->
          reg !! "repos" = Some (RepoTable d) ->
          (forall r, r ∈ OrderedDict.values d -> repo_name r <> n) ->
          clone_it (ArgName requirement) (ArgAtom (AStr n)) = Raises AttributeError).
Proof.
  intros g normpath Resolver_resolve Repo_find Repo_download from_repo where_ overwrite
         reg clone_it.
  subst clone_it. split; [done|]. split; [done|].
  intros d n requirement Hname Hreg Hnone. unfold clone.
  by rewrite (get_repo_unregistered g reg d n Hname Hreg Hnone).
Qed.

Lemma clone_edge_cases_witness :
  clone example_getattr example_normpath (fun _ _ => Returns [moduleA_1])
        (fun repo _ => Returns (example_storage repo))
        (fun _ spec where_ _ => Returns (Module_new where_ (spec_name spec) "1.0.0"))
        (ArgName "moduleA") (ArgAtom (AStr "nowhere")) None false example_registry
  = Raises AttributeError.
Proof.
  destruct (clone_edge_cases example_getattr example_normpath
              (fun _ _ => Returns [moduleA_1])
              (fun repo _ => Returns (example_storage repo))
              (fun _ spec where_ _ => Returns (Module_new where_ (spec_name spec) "1.0.0"))
              (ArgAtom ANone) None false example_registry) as (_ & _ & H).
  apply (H [("home", home_repo); ("user", user_repo)]).
  - intros repo. reflexivity.
  - reflexivity.
  - intros r Hr. simpl in Hr. elem_discriminate_name Hr.
Defined.

(** X21: [publish] to the name of no registered repository never returns a
    published module, and for a [Module] it raises [AttributeError]; a
    [ModuleSpec] that lives in a repository that is not local is refused
    with [ValueError] whatever the destination; a [Module] and a [Repo]
    instance go straight to that repository's [upload]. *)
Theorem publish_edge_cases :
  forall (Repo_getattr : Repo -> string -> option PyAtom)
         (Resolver_resolve : list Repo -> list string -> Outcome (list ModuleSpec))
         (Repo_upload : Repo -> Module -> bool -> Outcome Module)
         (Module_at : string -> Module) (overwrite : bool)
         (reg : Registry) (d : OrderedDict.t Repo) (n : string),
    (forall repo, Repo_getattr repo "name" = Some (AStr (repo_name repo))) ->
    reg !! "repos" = Some (RepoTable d) ->
    let publish_to module to_repo :=
      publish Repo_getattr Resolver_resolve Repo_upload Module_at
              module to_repo overwrite reg in
    ((forall r, r ∈ OrderedDict.values d -> repo_name r <> n) ->
     (forall module published, publish_to module (ArgAtom (AStr n)) <> Returns published)
     /\ (forall m, publish_to (ArgModule m) (ArgAtom (AStr n)) = Raises AttributeError))
    /\ (forall spec repo, repo_is_local (spec_repo spec) = false ->
          publish_to (ArgSpec spec) (ArgRepo repo) = Raises ValueError)
    /\ (forall m repo, publish_to (ArgModule m) (ArgRepo repo) = Repo_upload repo m overwrite).
Proof.
  intros g Resolver_resolve Repo_upload Module_at overwrite reg d n Hname Hreg publish_to.
  subst publish_to. split; [|split].
  - intros Hnone. split.
    + intros module published. unfold publish.
      rewrite (get_repo_unregistered g reg d n Hname Hreg Hnone), bind_Returns.
      destruct module as [m|spec|requirement]; simpl.
      * done.
      * by destruct (repo_is_local (spec_repo spec)).
      * rewrite (get_repos_Some _ _ Hreg). simpl.
        destruct (Resolver_resolve _ _) as [[|spec rest]|e|c]; simpl; try done.
        by destruct (repo_is_local (spec_repo spec)).
    + intros m. unfold publish.
      by rewrite (get_repo_unregistered g reg d n Hname Hreg Hnone).
  - intros spec repo Hlocal. unfold publish. simpl. by rewrite Hlocal.
  - done.
Qed.

Lemma publish_edge_cases_witness :
  publish example_getattr (fun _ _ => Returns [moduleA_1])
          (fun _ m _ => Returns m) (fun p => Module_new p "moduleA" "1.0.0")
          (ArgModule a_home) (ArgAtom (AStr "nowhere")) false example_registry
  = Raises AttributeError.
Proof.
  destruct (publish_edge_cases example_getattr (fun _ _ => Returns [moduleA_1])
              (fun _ m _ => Returns m) (fun p => Module_new p "moduleA" "1.0.0")
              false example_registry [("home", home_repo); ("user", user_repo)]
              "nowhere") as [H _].
  - intros repo. reflexivity.
  - reflexivity.
  - destruct H as [_ H]; [|apply H].
    intros r Hr. simpl in Hr. elem_discriminate_name Hr.
Defined.

(** ** Registering and unregistering, adding and listing *)

Lemma od_pop_middle {V} (n : string) (v : V) (l1 l2 : OrderedDict.t V) :
  n ∉ OrderedDict.keys l1 ->
  OrderedDict.pop n (l1 ++ (n, v) :: l2) = l1 ++ l2.
Proof.
  induction l1 as [|[k w] l1 IH]; simpl; intros Hn.
  - by rewrite String.eqb_refl.
  - apply not_elem_of_cons in Hn as [Hne Hn].
    apply String.eqb_neq in Hne as ->. by rewrite IH.
Qed.

(** X22: Registering a repository under a name that is not registered and
    unregistering it again gives back the registry as it was, wherever the
    repository was inserted. *)
Theorem remove_repo_after_add_repo_restores :
  forall (repo : Repo) (idx : option Z) (reg : Registry) (d : OrderedDict.t Repo),
    reg !! "repos" = Some (RepoTable d) -> table_ok d ->
    repo_name repo ∉ OrderedDict.keys d ->
    (add_repo repo idx reg ≫= remove_repo repo) = Returns reg.
Proof.
  intros repo idx reg d Hreg Hok Hfresh.
  destruct (add_repo_table repo idx reg d Hreg Hok) as [[Hin _]|[_ ->]]; [done|].
  rewrite bind_Returns. unfold remove_repo.
  erewrite repos_table_Some by apply lookup_insert_eq. rewrite bind_Returns.
  rewrite insert_insert_eq.
  assert (OrderedDict.pop (repo_name repo)
            match idx with
            | Some i => Py.list_insert i (repo_name repo, repo) d
            | None => d ++ [(repo_name repo, repo)]
            end = d) as ->.
  { destruct idx as [i|].
    - unfold Py.list_insert. rewrite od_pop_middle; [apply take_drop|].
      intros Hin. apply Hfresh. unfold OrderedDict.keys in *.
      rewrite fmap_take in Hin. apply elem_of_take in Hin as (j & Hj & _).
      apply list_elem_of_lookup. by exists j.
    - rewrite od_pop_middle by done. apply app_nil_r. }
  f_equal. by apply insert_id.
Qed.

Lemma remove_repo_after_add_repo_restores_witness :
  (add_repo (LocalRepo "cwd" "/work") (Some 1%Z) example_registry
   ≫= remove_repo (LocalRepo "cwd" "/work")) = Returns example_registry.
Proof.
  apply (remove_repo_after_add_repo_restores (LocalRepo "cwd" "/work") (Some 1%Z)
           example_registry [("home", home_repo); ("user", user_repo)]).
  - reflexivity.
  - exact example_table_ok.
  - intros Hin. simpl in Hin. elem_discriminate Hin.
Defined.

Lemma join_truthy (c : ascii) (l : list string) (x : string) :
  x ∈ l -> Py.truthy x = true -> Py.truthy (Py.join (String c "") l) = true.
Proof.
  intros Hin Hx. destruct l as [|a [|b l]].
  - by apply elem_of_nil in Hin.
  - apply list_elem_of_singleton in Hin. by subst.
  - rewrite join_cons by done. by destruct a.
Qed.

(** X23: A path added with [add_module_path] is among the paths
    [get_module_paths] returns afterwards, as it was added or normalized
    once more, provided the normalized path is not empty and does not
    contain [os.pathsep]. *)
Theorem get_module_paths_after_add_module_path :
  forall (c : ascii) (normpath : list string -> string)
         (site_data_dir user_data_dir getcwd : string)
         (p : string) (s : Session) (d : OrderedDict.t Repo),
    let pathsep := String c "" in
    registry s !! "repos" = Some (RepoTable d) ->
    Py.has_char c (normpath [p]) = false ->
    normpath [p] <> "" ->
    exists l s' paths,
      add_module_path pathsep normpath p s = Returns (l, s')
      /\ get_module_paths pathsep normpath site_data_dir user_data_dir getcwd
                          (os_environ s') = Returns paths
      /\ (normpath [p] ∈ paths \/ normpath [normpath [p]] ∈ paths).
Proof.
  intros c normpath site_data_dir user_data_dir getcwd p s d pathsep Hreg Hfree Hne.
  subst pathsep.
  destruct (add_module_path_unfold c normpath p s d Hreg) as [Hin Hnew].
  pose proof (split_parts_ok c (default "" (os_environ s !! "CPENV_MODULES"))) as Hparts.
  set (parts := List.filter Py.truthy _) in *.
  assert (exists l env',
             (exists reg', add_module_path (String c "") normpath p s
                           = Returns (l, mkSession reg' env' (ensured_paths s)))
             /\ env' !! "CPENV_MODULES" = Some (Py.join (String c "") l)
             /\ normpath [p] ∈ l
             /\ Forall (fun x => Py.has_char c x = false /\ Py.truthy x = true) l)
    as (l & env' & (reg' & Hadd) & Hvar & Hp & Hl).
  { destruct (decide (normpath [p] ∈ parts)) as [Hpin|Hpin].
    - eexists parts, _. split; [eexists; by apply Hin|].
      split; [apply lookup_insert_eq|]. done.
    - destruct (Hnew Hpin) as (reg' & d' & _ & _ & Hres).
      eexists (parts ++ [normpath [p]]), _. split; [eexists; exact Hres|].
      split; [apply lookup_insert_eq|]. split; [apply elem_of_app; right; left|].
      apply Forall_app. split; [done|]. constructor; [|done].
      split; [done|by apply truthy_nonempty]. }
  eexists l, _, _. split; [exact Hadd|].
  split; [by apply get_module_paths_unfold|]. cbn [os_environ].
  apply foldl_append_module_path. rewrite Hvar.
  rewrite (join_truthy c l (normpath [p]) Hp) by by apply truthy_nonempty.
  rewrite split_go_join.
  - done.
  - eapply Forall_impl; [exact Hl|]. by intros x [? _].
  - intros ->. by apply elem_of_nil in Hp.
Qed.

Lemma get_module_paths_after_add_module_path_witness :
  exists l s' paths,
    add_module_path ":" example_normpath "/c"
      (mkSession initial_registry {["CPENV_MODULES" := "/a:/b"]} []) = Returns (l, s')
    /\ get_module_paths ":" example_normpath "/usr/share/cpenv"
         "/home/u/.local/share/cpenv" "/work" (os_environ s') = Returns paths
    /\ (example_normpath ["/c"] ∈ paths
        \/ example_normpath [example_normpath ["/c"]] ∈ paths).
Proof.
  apply (get_module_paths_after_add_module_path ":"%char example_normpath
           "/usr/share/cpenv" "/home/u/.local/share/cpenv" "/work" "/c"
           (mkSession initial_registry {["CPENV_MODULES" := "/a:/b"]} []) []).
  - reflexivity.
  - reflexivity.
  - discriminate.
Defined.
